(** * whisper-to-influxdb: the migration pipeline and its order tracker

    A shallow embedding of [whisper-to-influxdb.go].  Every goroutine of the
    program is embedded as a function over the messages it receives and the
    results its collaborators return; the channels, all of them unbuffered
    ([init] creates them with [make(chan T)]), are the rendezvous steps of the
    transition system of module [Pipeline].

    Strings are Go strings (byte sequences), [uint32] and [uint64] values are
    [Z]; what the program prints is left out, except for the path [keepOrder]
    names when it exits.  A send on [exit] is a rendezvous with [keepOrder],
    which then calls [os.Exit].  [Extract.whisperWorker] and
    [Load.writeLoop] give an iteration of a worker up to that send;
    [whisperWorker] has no [return] after it and runs on while [keepOrder]
    exits: module [RunOn] gives its whole iteration and the race between the
    two. *)

From stdpp Require Import base list strings gmap sets.
From Stdlib Require Import ZArith Lia.

Local Open Scope Z_scope.

(** ** The order tracker: [keepOrder] *)

Module OrderTracker.

(** The linked list hanging off [firstInProgress]: a node is its [Path], the
    [nil] pointer is the empty list. *)
Abbreviation inProgress := (list string).

(** [for cur = firstInProgress; cur.Next != nil; cur = cur.Next {}] followed
    by [cur.Next = i]. *)
Fixpoint linkLast (cur : string) (next : inProgress) (i : string) : inProgress :=
  match next with
  | [] => [cur; i]
  | n :: rest => cur :: linkLast n rest i
  end.

(** [case found := <-foundFiles]. *)
Definition record (found : string) (firstInProgress : inProgress) : inProgress :=
  match firstInProgress with
  | [] => [found]
  | cur :: next => linkLast cur next found
  end.

(** [case finished := <-finishedFiles]: the first node whose [Path] equals
    [finished] is unlinked and the loop breaks; the loop running off the end
    of the list changes nothing. *)
Fixpoint complete (finished : string) (cur : inProgress) : inProgress :=
  match cur with
  | [] => []
  | path :: next =>
      if decide (path = finished) then next else path :: complete finished next
  end.

(** The two messages that change the list. *)
Inductive op : Type :=
  | Found (path : string)
  | Finished (path : string).

Definition step (firstInProgress : inProgress) (o : op) : inProgress :=
  match o with
  | Found p => record p firstInProgress
  | Finished p => complete p firstInProgress
  end.

(** The list after [keepOrder] has handled [ops], in arrival order. *)
Definition run (firstInProgress : inProgress) (ops : list op) : inProgress :=
  fold_left step ops firstInProgress.

(** What [select] can deliver. *)
Inductive msg : Type :=
  | Op (o : op)
  | Exit (code : Z).

(** [keepOrder] either is still in its loop, or has called [os.Exit]: then
    [printed] is the path it named as the place to resume from, if any. *)
Inductive outcome : Type :=
  | Running (firstInProgress : inProgress)
  | Exited (printed : option string) (code : Z).

Definition handle (firstInProgress : inProgress) (m : msg) : outcome :=
  match m with
  | Op o => Running (step firstInProgress o)
  | Exit code => Exited (head firstInProgress) code
  end.

Fixpoint keepOrder (firstInProgress : inProgress) (ms : list msg) : outcome :=
  match ms with
  | [] => Running firstInProgress
  | m :: rest =>
      match handle firstInProgress m with
      | Running l => keepOrder l rest
      | Exited p c => Exited p c
      end
  end.

(** *** Histories *)

Definition recorded (ops : list op) : list string :=
  omap (fun o => match o with Found p => Some p | Finished _ => None end) ops.

Definition completed (ops : list op) : list string :=
  omap (fun o => match o with Finished p => Some p | Found _ => None end) ops.

(** A key is completed only after it has been recorded. *)
Fixpoint completedAfterRecorded (seen : list string) (ops : list op) : Prop :=
  match ops with
  | [] => True
  | Found p :: rest => completedAfterRecorded (p :: seen) rest
  | Finished p :: rest => p ∈ seen ∧ completedAfterRecorded seen rest
  end.

(** A history of the pipeline: work units have unique keys (a path is walked
    once), and a unit is completed only after it has been recorded. *)
Definition history (ops : list op) : Prop :=
  NoDup (recorded ops) ∧ completedAfterRecorded [] ops.

(** [a] occurs before [b] in [l]. *)
Definition before (a b : string) (l : list string) : Prop :=
  ∃ l1 l2 l3, l = l1 ++ a :: l2 ++ b :: l3.

End OrderTracker.

(** ** The functions of Go's [strings] package that the program uses *)

Module GoStrings.

(** [s[n:]] for [n <= len(s)]. *)
Fixpoint sliceFrom (n : nat) (s : string) : string :=
  match n, s with
  | O, _ => s
  | S n', String _ s' => sliceFrom n' s'
  | S _, EmptyString => EmptyString
  end.

(** [strings.HasPrefix]. *)
Fixpoint HasPrefix (s prefix : string) : bool :=
  match prefix, s with
  | EmptyString, _ => true
  | String a prefix', String b s' => bool_decide (a = b) && HasPrefix s' prefix'
  | String _ _, EmptyString => false
  end.

(** [strings.HasSuffix]:
    [len(s) >= len(suffix) && s[len(s)-len(suffix):] == suffix]. *)
Definition HasSuffix (s suffix : string) : bool :=
  bool_decide (String.length suffix ≤ String.length s)%nat
  && bool_decide (sliceFrom (String.length s - String.length suffix) s = suffix).

(** [strings.Contains]: [substr] starts at some index of [s]. *)
Fixpoint Contains (s substr : string) : bool :=
  HasPrefix s substr
  || match s with
     | EmptyString => false
     | String _ s' => Contains s' substr
     end.

(** [s] ends with [suffix]; [substr] occurs in [s]. *)
Definition endsWith (s suffix : string) : Prop := ∃ p, s = p +:+ suffix.
Definition occursIn (substr s : string) : Prop := ∃ p q, s = p +:+ substr +:+ q.

End GoStrings.

(** ** Discovery: [process], the function [filepath.Walk] calls on every entry *)

Module Discovery.
Import GoStrings.

(** The flags [process] reads. *)
Record filters : Type := { include : string; exclude : string }.

(** The package variables [process] writes; [skipCounter] is a [uint64]. *)
Record cursor : Type := { skipUntil : string; skipCounter : Z }.

(** A send on one of the two channels [process] writes to. *)
Inductive send : Type :=
  | ToFoundFiles (path : string)
  | ToWhisperFiles (path : string).

(** One call [process(path, info, err)]: the cursor it leaves, the sends it
    performed in order, and the error it returned ([info] is not used, the
    message printed when skipping stops is left out). *)
Definition process (f : filters) (c : cursor) (path : string) (err : option string)
  : cursor * list send * option string :=
  let c1 :=
    if decide (path = skipUntil c)
    then {| skipUntil := ""; skipCounter := skipCounter c |} else c in
  match err with
  | Some e => (c1, [], Some e)
  | None =>
      if negb (HasSuffix path ".wsp") then (c1, [], None)
      else if bool_decide (exclude f ≠ "") && Contains path (exclude f)
      then (c1, [], None)
      else if negb (Contains path (include f)) then (c1, [], None)
      else if bool_decide (skipUntil c1 ≠ "")
      then ({| skipUntil := skipUntil c1;
               skipCounter := (skipCounter c1 + 1) mod 2 ^ 64 |}, [], None)
      else (c1, [ToFoundFiles path; ToWhisperFiles path], None)
  end.

(** The cursor suppresses the entry at [path]: it is set, and [path] is not
    the entry it waits for. *)
Definition suppressed (c : cursor) (path : string) : Prop :=
  skipUntil c ≠ "" ∧ path ≠ skipUntil c.

(** [filepath.Walk(whisperDir, process)] over the entries of the tree in walk
    order, each with the error the walk met at it: the walk stops at the first
    error [process] returns and returns it. *)
Fixpoint Walk (f : filters) (c : cursor) (entries : list (string * option string))
  : cursor * list send * option string :=
  match entries with
  | [] => (c, [], None)
  | (path, err) :: rest =>
      match process f c path err with
      | (c1, out, Some e) => (c1, out, Some e)
      | (c1, out, None) =>
          let '(c2, out2, r) := Walk f c1 rest in (c2, out ++ out2, r)
      end
  end.

(** What [main] sends on [exit] after the walk: [exit <- 2] on an error. *)
Definition walkExit (r : option string) : option Z :=
  match r with
  | Some _ => Some 2
  | None => None
  end.

(** The sends of a walk that forwards [keys], in order. *)
Definition announce (keys : list string) : list send :=
  keys ≫= λ p, [ToFoundFiles p; ToWhisperFiles p].

End Discovery.

(** ** The archive reader: package [whisper], seen through the calls made *)

Module Whisper.

(** A collaborator's call returns a value or an error. *)
Inductive result (A : Type) : Type :=
  | Ok (a : A)
  | Err (msg : string).
Arguments Ok {A} a.
Arguments Err {A} msg.

Section Points.
Context {float64 : Type}.

(** [whisper.Point]; [Timestamp] is a [uint32], 0 marks a slot without data. *)
Record Point : Type := { Timestamp : Z; Value : float64 }.

(** [whisper.ArchiveInfo], the fields that matter here. *)
Record ArchiveInfo : Type := { SecondsPerPoint : Z; Points : Z }.

(** An open [*whisper.Whisper]: its header's archives, and what
    [DumpArchive(i)] and [FetchUntil(from, until)] return on it. *)
Record Whisper : Type := {
  Archives : list ArchiveInfo;
  DumpArchive : nat → result (list Point);
  FetchUntil : Z → Z → result (list Point)
}.

(** The archives of a whisper file are stored from the highest resolution
    to the lowest. *)
Definition finestFirst (w : Whisper) : Prop :=
  ∀ i j a b, Archives w !! i = Some a → Archives w !! j = Some b →
             (i < j)%nat → SecondsPerPoint a < SecondsPerPoint b.


End Points.
Arguments Point : clear implicits.
Arguments Whisper : clear implicits.

End Whisper.

(** ** The extract pool: [whisperWorker] *)

Module Extract.
Import Whisper.

Section Worker.
Context {float64 : Type}.

(** [abstractSerie]. *)
Record abstractSerie : Type := { Path : string; Points : list (Point float64) }.

(** The flags [whisperWorker] reads. *)
Record flags : Type := {
  all : bool;
  skipWhisperErrors : bool;
  fromTime : Z;
  untilTime : Z
}.

(** [os.Open(path)] and then [whisper.OpenWhisper(fd)]. *)
Definition source : Type := string → result (result (Whisper float64)).

(** How one iteration of [for path := range whisperFiles] goes up to its
    first send: it ends with [continue], it sends [code] on [exit], or it
    sends [serie] on [influxSeries].  What the worker does after a send on
    [exit] is in [RunOn.whisperWorkerRun]. *)
Inductive extracted : Type :=
  | Abandoned
  | ExitRequested (code : Z)
  | Forwarded (serie : abstractSerie).

(** [point.Timestamp != 0]. *)
Definition hasData (p : Point float64) : Prop := Timestamp p ≠ 0.

(** [for i := len(w.Header.Archives) - 1; i >= 0; i--], entered with [n]
    archives still to dump (the next index is [n - 1]) and the points
    appended so far; [None] is [exit <- 2], where this function stops and
    [RunOn.dumpRun] goes on.  An archive that cannot be dumped is, with
    [skipWhisperErrors], passed over by [continue].
    ([numTotalPoints] only sizes the slice the points are appended to.) *)
Fixpoint dumpArchives (skip : bool) (w : Whisper float64) (n : nat)
    (points : list (Point float64)) : option (list (Point float64)) :=
  match n with
  | O => Some points
  | S i =>
      match DumpArchive w i with
      | Err _ => if skip then dumpArchives skip w i points else None
      | Ok allPoints => dumpArchives skip w i (points ++ filter hasData allPoints)
      end
  end.

(** The archive indices from the last one (the coarsest resolution) down to
    0 (the finest). *)
Fixpoint coarsestToFinest (n : nat) : list nat :=
  match n with
  | O => []
  | S i => i :: coarsestToFinest i
  end.

(** The dumps of the archives of [coarsestToFinest n], without the slots that
    hold no data, one after the other. *)
Definition dumpsInOrder (dumps : nat → list (Point float64)) (n : nat)
  : list (Point float64) :=
  concat ((λ i, filter hasData (dumps i)) <$> coarsestToFinest n).

(** One iteration of the loop of [whisperWorker], up to its first send. *)
Definition whisperWorker (fl : flags) (open : source) (path : string) : extracted :=
  match open path with
  | Err _ | Ok (Err _) =>
      if skipWhisperErrors fl then Abandoned else ExitRequested 2
  | Ok (Ok w) =>
      if all fl then
        match dumpArchives (skipWhisperErrors fl) w (length (Archives w)) [] with
        | None => ExitRequested 2
        | Some points => Forwarded {| Path := path; Points := points |}
        end
      else
        match FetchUntil w (fromTime fl) (untilTime fl) with
        | Err _ => if skipWhisperErrors fl then Abandoned else ExitRequested 2
        | Ok points => Forwarded {| Path := path; Points := points |}
        end
  end.

(** The ways the read of the unit at [path] can fail: [os.Open] fails,
    [whisper.OpenWhisper] fails, in full-dump mode the dump of archive [i]
    fails, in range mode [FetchUntil] fails. *)
Inductive failure : Type :=
  | OpenFails
  | DecodeFails
  | DumpFails (i : nat)
  | RangeReadFails.

Definition fails (fl : flags) (open : source) (path : string) (k : failure) : Prop :=
  match k with
  | OpenFails => ∃ e, open path = Err e
  | DecodeFails => ∃ e, open path = Ok (Err e)
  | DumpFails i =>
      all fl = true
      ∧ ∃ w e, open path = Ok (Ok w) ∧ (i < length (Archives w))%nat
               ∧ DumpArchive w i = Err e
  | RangeReadFails =>
      all fl = false
      ∧ ∃ w e, open path = Ok (Ok w)
               ∧ FetchUntil w (fromTime fl) (untilTime fl) = Err e
  end.

(** Modelled from the spec: the destination store is not part of the
    repository; of the points of a batch written for one timestamp it keeps
    the one written last. *)
Definition survivor (t : Z) (points : list (Point float64)) : option (Point float64) :=
  last (filter (λ p, Timestamp p = t) points).

End Worker.
Arguments abstractSerie : clear implicits.
Arguments extracted : clear implicits.
Arguments source : clear implicits.

End Extract.

(** ** The load pool: the write loop of [influxWorker] *)

Module Load.

Section Worker.
Context {BatchPoints : Type}.

(** What the loop does, in order. *)
Inductive action : Type :=
  | Write (b : BatchPoints)
  | Sleep (seconds : Z)
  | ExitRequest (code : Z)
  | FinishedFile (path : string).

(** Where the loop stands: about to call [Write] again, left by [break], or
    past [exit <- 2]. *)
Inductive status : Type := Retrying | Done | Exiting.

(** The [for] loop around [influxClient.Write(influxBatchPoints)] for the
    batch built from the serie of [path]; [results] tells of each call to
    [Write], in order, whether it succeeded.  After [exit <- 2] the worker
    sleeps for a hundred seconds, during which [keepOrder] ends the
    program. *)
Fixpoint writeLoop (skipInfluxErrors : bool) (b : BatchPoints) (path : string)
    (results : list bool) : list action * status :=
  match results with
  | [] => ([], Retrying)
  | true :: _ => ([Write b; FinishedFile path], Done)
  | false :: rest =>
      if skipInfluxErrors then
        let '(acts, st) := writeLoop skipInfluxErrors b path rest in
        (Write b :: Sleep 5 :: acts, st)
      else ([Write b; ExitRequest 2], Exiting)
  end.

End Worker.
Arguments action : clear implicits.

End Load.

(** ** Sample data: a small tree of whisper files, with [Z] for [float64] *)

Module Sample.
Import Whisper Extract.

Definition point (t v : Z) : Point Z := {| Timestamp := t; Value := v |}.

(** A file with a one-minute and a one-hour archive that both hold a point
    for the timestamp 3600, and each an empty slot. *)
Definition twoArchives : Whisper Z :=
  {| Archives := [ {| SecondsPerPoint := 60; Whisper.Points := 2 |};
                   {| SecondsPerPoint := 3600; Whisper.Points := 2 |} ];
     DumpArchive := λ i,
       match i with
       | 0%nat => Ok [point 3600 1; point 0 0]
       | 1%nat => Ok [point 0 0; point 3600 2]
       | _ => Err "no such archive"
       end;
     FetchUntil := λ _ _, Ok [point 3600 1] |}.

Definition twoArchivesDumps (i : nat) : list (Point Z) :=
  match i with
  | 0%nat => [point 3600 1; point 0 0]
  | 1%nat => [point 0 0; point 3600 2]
  | _ => []
  end.

(** A file whose only archive cannot be dumped, and whose range read fails. *)
Definition unreadable : Whisper Z :=
  {| Archives := [ {| SecondsPerPoint := 60; Whisper.Points := 2 |} ];
     DumpArchive := λ _, Err "read";
     FetchUntil := λ _ _, Err "read" |}.

(** The tree: [a.wsp] is readable, [b.wsp] opens and cannot be read, and
    nothing else can be opened. *)
Definition tree : source Z := λ path,
  if decide (path = "/w/a.wsp") then Ok (Ok twoArchives)
  else if decide (path = "/w/b.wsp") then Ok (Ok unreadable)
  else Err "no such file".

Definition fullDump (skip : bool) : flags :=
  {| all := true; skipWhisperErrors := skip; fromTime := 0; untilTime := 7200 |}.

Definition rangeRead (skip : bool) : flags :=
  {| all := false; skipWhisperErrors := skip; fromTime := 0; untilTime := 7200 |}.

End Sample.

(** ** The pipeline: the goroutines and the channels between them *)

Module Pipeline.
Import OrderTracker Discovery Whisper Extract.

Section System.
Context {float64 : Type}.
Variable fl : flags.
Variable open : source float64.

(** A state of the running program.  A send on an unbuffered channel and
    the matching receive are one step; [keepOrder] handles a message before
    it receives the next one, so its receive and the update of its list are
    one step too.  [trackerLog] and [abandoned] are not program state: they
    keep what [keepOrder] has handled so far, oldest first, and the paths the
    extract pool has given up.  The steps are those of a program in which no
    exit has been requested: a send on [exit] is not a step, and neither is
    what a worker does after it ([RunOn]). *)
Record system : Type := {
  discovery : list send;
  firstInProgress : inProgress;
  trackerLog : list op;
  extracting : list string;
  loading : list (abstractSerie float64);
  abandoned : list string
}.

(** The program once [main] has started the workers and begins the walk that
    is going to perform [sends]. *)
Definition start (sends : list send) : system :=
  {| discovery := sends; firstInProgress := []; trackerLog := [];
     extracting := []; loading := []; abandoned := [] |}.

Inductive step : system → system → Prop :=
  (* [foundFiles <- path] in [process], [found := <-foundFiles] in [keepOrder] *)
  | step_found p d s :
      discovery s = ToFoundFiles p :: d →
      step s {| discovery := d;
                firstInProgress := record p (firstInProgress s);
                trackerLog := trackerLog s ++ [Found p];
                extracting := extracting s; loading := loading s;
                abandoned := abandoned s |}
  (* [whisperFiles <- path] in [process], received by a [whisperWorker] *)
  | step_work p d s :
      discovery s = ToWhisperFiles p :: d →
      step s {| discovery := d;
                firstInProgress := firstInProgress s;
                trackerLog := trackerLog s;
                extracting := p :: extracting s; loading := loading s;
                abandoned := abandoned s |}
  (* [influxSeries <- serie] in [whisperWorker], received by an [influxWorker] *)
  | step_forward p serie l1 l2 s :
      extracting s = l1 ++ p :: l2 →
      whisperWorker fl open p = Forwarded serie →
      step s {| discovery := discovery s;
                firstInProgress := firstInProgress s;
                trackerLog := trackerLog s;
                extracting := l1 ++ l2; loading := serie :: loading s;
                abandoned := abandoned s |}
  (* [continue] in [whisperWorker] *)
  | step_abandon p l1 l2 s :
      extracting s = l1 ++ p :: l2 →
      whisperWorker fl open p = Abandoned →
      step s {| discovery := discovery s;
                firstInProgress := firstInProgress s;
                trackerLog := trackerLog s;
                extracting := l1 ++ l2; loading := loading s;
                abandoned := p :: abandoned s |}
  (* [finishedFiles <- abstractSerie.Path] in [influxWorker] after a write
     that succeeded, [finished := <-finishedFiles] in [keepOrder] *)
  | step_finished serie l1 l2 s :
      loading s = l1 ++ serie :: l2 →
      step s {| discovery := discovery s;
                firstInProgress := complete (Path serie) (firstInProgress s);
                trackerLog := trackerLog s ++ [Finished (Path serie)];
                extracting := extracting s; loading := l1 ++ l2;
                abandoned := abandoned s |}.

(** The states the program can reach from [s]. *)
Definition reachable (s s' : system) : Prop := rtc step s s'.

(** The path [process] has sent to [keepOrder] and not yet to a worker. *)
Definition handedOver (d : list send) : list string :=
  match d with
  | ToWhisperFiles p :: _ => [p]
  | _ => []
  end.

(** The paths [process] is still going to send to [keepOrder]. *)
Definition upcoming (d : list send) : list string :=
  omap (λ x, match x with ToFoundFiles p => Some p | ToWhisperFiles _ => None end) d.

(** Where the paths that [keepOrder] has recorded are. *)
Definition whereabouts (s : system) : list string :=
  handedOver (discovery s) ++ extracting s ++ (Path <$> loading s)
  ++ abandoned s ++ completed (trackerLog s).

(** What [process] still has to send: the two sends for each key left, or
    the second send for a key and then those. *)
Definition discoveryShape (d : list send) : Prop :=
  ∃ keys, d = announce keys ∨ ∃ p, d = ToWhisperFiles p :: announce keys.

(** The invariant of the pipeline started on a walk that forwards [keys]. *)
Definition pipelineInv (keys : list string) (s : system) : Prop :=
  discoveryShape (discovery s)
  ∧ recorded (trackerLog s) ++ upcoming (discovery s) = keys
  ∧ whereabouts s ≡ₚ recorded (trackerLog s)
  ∧ completedAfterRecorded [] (trackerLog s)
  ∧ firstInProgress s = run [] (trackerLog s).

End System.

End Pipeline.

(** ** Discovery over a whole walk: the paths that pass the filters *)

Module Filter.
Import GoStrings Discovery.

(** The three tests [process] applies to a path before it looks at the
    cursor: the suffix, the exclude substring, the include substring. *)
Definition eligible (f : filters) (path : string) : bool :=
  HasSuffix path ".wsp"
  && negb (bool_decide (exclude f ≠ "") && Contains path (exclude f))
  && Contains path (include f).

(** The paths the walk hands to [process] before it meets an error, and
    that error. *)
Fixpoint upToError (entries : list (string * option string)) : list string :=
  match entries with
  | [] => []
  | (path, None) :: rest => path :: upToError rest
  | (_, Some _) :: _ => []
  end.

Fixpoint firstError (entries : list (string * option string)) : option string :=
  match entries with
  | [] => None
  | (_, None) :: rest => firstError rest
  | (_, Some e) :: _ => Some e
  end.

(** The paths among [paths] that pass the tests, in walk order. *)
Definition eligiblePaths (f : filters) (paths : list string) : list string :=
  filter (λ path, eligible f path = true) paths.

End Filter.

(** ** The load pool: how [influxWorker] builds the batch it writes *)

Module Influx.
Import GoStrings Whisper Extract Load.
Import (notations) Stdlib.Strings.Ascii.

(** [s[:n]] for [n <= len(s)]. *)
Fixpoint sliceTo (n : nat) (s : string) : string :=
  match n, s with
  | O, _ => EmptyString
  | S n', String a s' => String a (sliceTo n' s')
  | S _, EmptyString => EmptyString
  end.

(** [s[n:]] as Go evaluates it: a slice bound beyond [len(s)] panics. *)
Definition sliceFromChecked (n : nat) (s : string) : option string :=
  if decide (n ≤ String.length s)%nat then Some (sliceFrom n s) else None.

(** [strings.TrimSuffix]. *)
Definition TrimSuffix (s suffix : string) : string :=
  if HasSuffix s suffix
  then sliceTo (String.length s - String.length suffix) s
  else s.

(** [strings.Replace(s, old, new, -1)] for an [old] and a [new] of one byte. *)
Fixpoint ReplaceByte (old new : Ascii.ascii) (s : string) : string :=
  match s with
  | EmptyString => EmptyString
  | String a s' =>
      String (if decide (a = old) then new else a) (ReplaceByte old new s')
  end.

(** [name] in [influxWorker]; [None] is the panic of the slice expression
    [abstractSerie.Path[len(whisperDir)+1:]]. *)
Definition seriesName (whisperDir path : string) : option string :=
  match sliceFromChecked (String.length whisperDir + 1) path with
  | None => None
  | Some rest => Some (ReplaceByte "/"%char "."%char (TrimSuffix rest ".wsp"))
  end.

(** [main]: one [/] at the end of the [whisperDir] flag is cut off. *)
Definition trimDir (whisperDir : string) : string :=
  if HasSuffix whisperDir "/"
  then sliceTo (String.length whisperDir - 1) whisperDir
  else whisperDir.

Section Convert.
Context {float64 : Type}.

(** [client.Point] and [client.BatchPoints], the fields the program sets;
    [Time] is in seconds since the epoch. *)
Record InfluxPoint : Type := {
  Measurement : string;
  Fields : list (string * float64);
  Time : Z
}.

Record BatchPoints : Type := {
  RetentionPolicy : string;
  BatchOf : list InfluxPoint;
  Database : string;
  Precision : string
}.

(** The package variables [influxWorker] reads, and [influxPrefix], which
    the flags set as well. *)
Record flags : Type := {
  whisperDir : string;
  influxDb : string;
  influxPrefix : string;
  skipInfluxErrors : bool
}.

(** [influxBatchPoints] for a serie. *)
Definition influxBatchPoints (fl : flags) (serie : abstractSerie float64)
  : option BatchPoints :=
  match seriesName (whisperDir fl) (Path serie) with
  | None => None
  | Some name =>
      Some {| RetentionPolicy := "default";
              BatchOf :=
                (λ p, {| Measurement := name;
                         Fields := [("value"%string, Value p)];
                         Time := Timestamp p |}) <$> Points serie;
              Database := influxDb fl;
              Precision := "s" |}
  end.

(** One iteration of [for abstractSerie := range influxSeries]. *)
Definition influxWorker (fl : flags) (serie : abstractSerie float64)
    (results : list bool) : option (list (action BatchPoints) * status) :=
  match influxBatchPoints fl serie with
  | None => None
  | Some b => Some (writeLoop (skipInfluxErrors fl) b (Path serie) results)
  end.

End Convert.
Arguments InfluxPoint : clear implicits.
Arguments BatchPoints : clear implicits.

End Influx.

(** ** A full dump in which some archives cannot be read *)

Module Dumped.
Import Whisper Extract.

Section Readable.
Context {float64 : Type}.

(** What [DumpArchive(i)] yields to the loop of a worker that skips: the
    points of the archive, or nothing when the call fails. *)
Definition readable (w : Whisper float64) (i : nat) : list (Point float64) :=
  match DumpArchive w i with
  | Ok points => points
  | Err _ => []
  end.

(** The flags with another time range. *)
Definition withRange (fl : flags) (from until : Z) : flags :=
  {| all := all fl; skipWhisperErrors := skipWhisperErrors fl;
     fromTime := from; untilTime := until |}.

End Readable.

End Dumped.

(** ** [whisperWorker] past [exit <- 2], and the race with [keepOrder] *)

Module RunOn.
Import OrderTracker Whisper Extract.

Section Run.
Context {float64 : Type}.

(** What the library hands back together with an error, and that
    [whisperWorker] goes on to use: the result of [whisper.OpenWhisper] on
    the nil file of a failed [os.Open], [allPoints] of a failed
    [DumpArchive(i)], [points] of a failed [FetchUntil]. *)
Record leftovers : Type := {
  openWhisperNil : result (Whisper float64);
  dumpedWithError : nat → list (Point float64);
  fetchedWithError : list (Point float64)
}.

(** What a whisper worker does that the rest of the program can see:
    [exit <- code], [influxSeries <- serie], and the panic of
    [w.Header.Archives] (line 190) or [w.FetchUntil] (line 217) on the nil
    [w] that a failed [OpenWhisper] returns. *)
Inductive act : Type :=
  | SendExit (code : Z)
  | SendSerie (serie : abstractSerie float64)
  | NilDereference.

(** The loop over the archives, entered as [dumpArchives]; without skipping
    a failed dump is followed by [exit <- 2] and then by the loop over
    [allPoints] and the remaining archives. *)
Fixpoint dumpRun (skip : bool) (lo : leftovers) (w : Whisper float64) (n : nat)
    (points : list (Point float64)) : list act * list (Point float64) :=
  match n with
  | O => ([], points)
  | S i =>
      match DumpArchive w i with
      | Err _ =>
          if skip then dumpRun skip lo w i points
          else
            let '(acts, result) :=
              dumpRun skip lo w i (points ++ filter hasData (dumpedWithError lo i)) in
            (SendExit 2 :: acts, result)
      | Ok allPoints => dumpRun skip lo w i (points ++ filter hasData allPoints)
      end
  end.

(** Lines 184 to 234, for the [w] and [err] of [OpenWhisper]. *)
Definition decodedRun (fl : flags) (lo : leftovers) (path : string)
    (decoded : result (Whisper float64)) : list act :=
  match decoded with
  | Err _ => if skipWhisperErrors fl then [] else [SendExit 2; NilDereference]
  | Ok w =>
      if all fl then
        let '(acts, points) :=
          dumpRun (skipWhisperErrors fl) lo w (length (Archives w)) [] in
        acts ++ [SendSerie {| Path := path; Points := points |}]
      else
        match FetchUntil w (fromTime fl) (untilTime fl) with
        | Err _ =>
            if skipWhisperErrors fl then []
            else [SendExit 2;
                  SendSerie {| Path := path; Points := fetchedWithError lo |}]
        | Ok points => [SendSerie {| Path := path; Points := points |}]
        end
  end.

(** One whole iteration of the loop of [whisperWorker], in order. *)
Definition whisperWorkerRun (fl : flags) (open : source float64) (lo : leftovers)
    (path : string) : list act :=
  match open path with
  | Err _ =>
      if skipWhisperErrors fl then []
      else SendExit 2 :: decodedRun fl lo path (openWhisperNil lo)
  | Ok decoded => decodedRun fl lo path decoded
  end.

(** [keepOrder] and a whisper worker in the middle of an iteration:
    [keepOrder] waits in its [select]; or it has received [code] on [exit]
    and has not yet printed; or it has printed and called [os.Exit(code)]; or
    the panic of the worker has ended the program, with nothing printed by
    [keepOrder]. *)
Inductive program : Type :=
  | Live (firstInProgress : inProgress) (worker : list act)
  | Exiting (firstInProgress : inProgress) (code : Z) (worker : list act)
  | ExitedWith (printed : option string) (code : Z)
  | Crashed.

(** A send on [exit] needs [keepOrder] in its [select]; once [keepOrder]
    has received, it and the worker run side by side. *)
Inductive race : program → program → Prop :=
  | race_exit l code worker :
      race (Live l (SendExit code :: worker)) (Exiting l code worker)
  | race_serie l serie worker :
      race (Live l (SendSerie serie :: worker)) (Live l worker)
  | race_panic l worker :
      race (Live l (NilDereference :: worker)) Crashed
  | race_print l code worker printed code' :
      handle l (Exit code) = Exited printed code' →
      race (Exiting l code worker) (ExitedWith printed code')
  | race_serie_late l code serie worker :
      race (Exiting l code (SendSerie serie :: worker)) (Exiting l code worker)
  | race_panic_late l code worker :
      race (Exiting l code (NilDereference :: worker)) Crashed.

End Run.
Arguments leftovers : clear implicits.
Arguments act : clear implicits.
Arguments program : clear implicits.

(** A file that opens and does not decode. *)
Definition undecodable : source Z := λ _, Ok (Err "bad header").

Definition nothingLeft : leftovers Z :=
  {| openWhisperNil := Err "invalid argument";
     dumpedWithError := λ _, [];
     fetchedWithError := [] |}.

End RunOn.

(** * Proofs *)

(** Closed decidable goals are settled by evaluation. *)
Ltac by_compute := apply (bool_decide_unpack _); vm_compute; exact I.

(** ** The embedding evaluated on small inputs *)

Section Evaluation.
Import OrderTracker GoStrings Discovery Whisper Extract Load Sample.

Example keepOrder_out_of_order :
  run [] [Found "a"; Found "b"; Found "c"; Finished "b"] = ["a"; "c"]%string.
Proof. reflexivity. Qed.

Example keepOrder_unknown_completion :
  run [] [Found "a"; Finished "z"; Found "b"] = ["a"; "b"]%string.
Proof. reflexivity. Qed.

Example keepOrder_exit_empty :
  keepOrder [] [Op (Found "a"); Op (Finished "a"); Exit 2] = Exited None 2.
Proof. reflexivity. Qed.

Example HasSuffix_wsp :
  HasSuffix "/w/a.wsp" ".wsp" = true ∧ HasSuffix "/w/a.txt" ".wsp" = false
  ∧ HasSuffix "wsp" ".wsp" = false.
Proof. by vm_compute. Qed.

Example Contains_cpu :
  Contains "/w/cpu/a.wsp" "cpu" = true ∧ Contains "/w/mem/a.wsp" "cpu" = false.
Proof. by vm_compute. Qed.

Example process_forwards :
  process {| include := ""; exclude := "" |} {| skipUntil := ""; skipCounter := 0 |}
          "/w/a.wsp" None =
  ({| skipUntil := ""; skipCounter := 0 |},
   [ToFoundFiles "/w/a.wsp"; ToWhisperFiles "/w/a.wsp"], None).
Proof. reflexivity. Qed.

Example process_excludes :
  process {| include := ""; exclude := "mem" |} {| skipUntil := ""; skipCounter := 0 |}
          "/w/mem/a.wsp" None =
  ({| skipUntil := ""; skipCounter := 0 |}, [], None).
Proof. reflexivity. Qed.

Example process_skips :
  process {| include := ""; exclude := "" |}
          {| skipUntil := "/w/b.wsp"; skipCounter := 7 |} "/w/a.wsp" None =
  ({| skipUntil := "/w/b.wsp"; skipCounter := 8 |}, [], None).
Proof. reflexivity. Qed.

Example process_resumes :
  process {| include := ""; exclude := "" |}
          {| skipUntil := "/w/b.wsp"; skipCounter := 7 |} "/w/b.wsp" None =
  ({| skipUntil := ""; skipCounter := 7 |},
   [ToFoundFiles "/w/b.wsp"; ToWhisperFiles "/w/b.wsp"], None).
Proof. reflexivity. Qed.

Example Walk_stops_at_error :
  Walk {| include := ""; exclude := "" |} {| skipUntil := ""; skipCounter := 0 |}
       [("/w"%string, None); ("/w/a.wsp"%string, None);
        ("/w/d"%string, Some "permission denied"%string);
        ("/w/e.wsp"%string, None)] =
  ({| skipUntil := ""; skipCounter := 0 |},
   [ToFoundFiles "/w/a.wsp"; ToWhisperFiles "/w/a.wsp"],
   Some "permission denied"%string).
Proof. reflexivity. Qed.

Example whisperWorker_full_dump :
  whisperWorker (fullDump true) tree "/w/a.wsp" =
  Forwarded {| Path := "/w/a.wsp"; Points := [point 3600 2; point 3600 1] |}.
Proof. reflexivity. Qed.

Example whisperWorker_missing_file :
  whisperWorker (fullDump true) tree "/w/c.wsp" = Abandoned
  ∧ whisperWorker (fullDump false) tree "/w/c.wsp" = ExitRequested 2.
Proof. by split. Qed.

Example whisperWorker_range_read_fails :
  whisperWorker (rangeRead true) tree "/w/b.wsp" = Abandoned
  ∧ whisperWorker (rangeRead false) tree "/w/b.wsp" = ExitRequested 2.
Proof. by split. Qed.

Example writeLoop_gives_up_without_skipping :
  writeLoop false "batch" "/w/a.wsp" [false; true] =
  ([Write "batch"; ExitRequest 2], Exiting).
Proof. reflexivity. Qed.

End Evaluation.

(** ** The order tracker *)

Section TrackerProofs.
Import OrderTracker.

Lemma linkLast_snoc cur next i : linkLast cur next i = (cur :: next) ++ [i].
Proof.
  revert cur. induction next as [|n rest IH]; intros cur; simpl; [done|].
  by rewrite IH.
Qed.

Lemma record_snoc found l : record found l = l ++ [found].
Proof. destruct l as [|cur next]; [done|]. apply linkLast_snoc. Qed.

Lemma run_snoc l ops o : run l (ops ++ [o]) = step (run l ops) o.
Proof. unfold run. by rewrite fold_left_app. Qed.

Lemma recorded_snoc ops o :
  recorded (ops ++ [o]) =
  recorded ops ++ match o with Found p => [p] | Finished _ => [] end.
Proof. unfold recorded. rewrite omap_app. by destruct o. Qed.

Lemma completed_snoc ops o :
  completed (ops ++ [o]) =
  completed ops ++ match o with Finished p => [p] | Found _ => [] end.
Proof. unfold completed. rewrite omap_app. by destruct o. Qed.

Lemma complete_not_elem finished l : finished ∉ l → complete finished l = l.
Proof.
  induction l as [|path next IH]; [done|].
  intros [Hne Hnext]%not_elem_of_cons. simpl.
  destruct (decide (path = finished)); [congruence|]. by rewrite IH.
Qed.

Lemma complete_first finished l1 l2 :
  finished ∉ l1 → complete finished (l1 ++ finished :: l2) = l1 ++ l2.
Proof.
  induction l1 as [|path next IH]; simpl.
  - intros _. by destruct (decide (finished = finished)).
  - intros [Hne Hnext]%not_elem_of_cons.
    destruct (decide (path = finished)); [congruence|]. by rewrite IH.
Qed.

Lemma complete_NoDup finished l :
  NoDup l → complete finished l = filter (λ k, k ≠ finished) l.
Proof.
  induction 1 as [|path next Hnotin Hnd IH]; [done|]. simpl.
  destruct (decide (path = finished)) as [->|Hne].
  - rewrite filter_cons_False by (intros Hk; by apply Hk).
    symmetry. clear IH Hnd. induction next as [|y next IH]; [done|].
    apply not_elem_of_cons in Hnotin as [Hy Hnext].
    rewrite filter_cons_True by congruence. by rewrite IH.
  - rewrite filter_cons_True by done. by rewrite IH.
Qed.

Lemma completedAfterRecorded_snoc seen ops o :
  completedAfterRecorded seen (ops ++ [o]) ↔
  completedAfterRecorded seen ops ∧
  match o with
  | Found _ => True
  | Finished p => p ∈ seen ∨ p ∈ recorded ops
  end.
Proof.
  revert seen. induction ops as [|o' ops IH]; intros seen; simpl.
  - destruct o; simpl; [naive_solver|]. unfold recorded. simpl.
    rewrite elem_of_nil. naive_solver.
  - destruct o' as [p'|p']; simpl; rewrite IH.
    + destruct o as [p|p]; [done|]. unfold recorded; simpl.
      fold (recorded ops). rewrite !elem_of_cons. naive_solver.
    + destruct o as [p|p]; unfold recorded; simpl; naive_solver.
Qed.

Lemma history_snoc ops o :
  history (ops ++ [o]) →
  history ops ∧
  match o with
  | Found p => p ∉ recorded ops
  | Finished p => p ∈ recorded ops
  end.
Proof.
  unfold history. rewrite recorded_snoc, completedAfterRecorded_snoc.
  intros [Hnd [Hc Ho]]. destruct o as [p|p].
  - apply NoDup_app in Hnd as (Hnd & Hdisj & _). repeat split; [done..|].
    intros Hin. apply (Hdisj p Hin). by left.
  - rewrite app_nil_r in Hnd. repeat split; [done..|].
    destruct Ho as [Ho|Ho]; [by apply elem_of_nil in Ho|done].
Qed.

Lemma completed_recorded ops k : history ops → k ∈ completed ops → k ∈ recorded ops.
Proof.
  induction ops as [|o ops IH] using rev_ind.
  - intros _ Hk. by apply elem_of_nil in Hk.
  - intros [Hh Ho]%history_snoc. rewrite completed_snoc, recorded_snoc.
    rewrite !elem_of_app. destruct o as [p|p].
    + rewrite elem_of_nil. naive_solver.
    + rewrite elem_of_nil, list_elem_of_singleton. naive_solver.
Qed.

(** The list is, at every instant, the recorded keys in record order with the
    completed ones struck out. *)
Lemma run_history ops :
  history ops →
  run [] ops = filter (λ k, k ∉ completed ops) (recorded ops).
Proof.
  induction ops as [|o ops IH] using rev_ind; [done|].
  intros Hh. pose proof Hh as [Hh' Ho]%history_snoc.
  rewrite run_snoc, IH by done.
  rewrite recorded_snoc, completed_snoc. destruct o as [p|p]; simpl.
  - rewrite record_snoc, !app_nil_r, filter_app. f_equal.
    rewrite filter_cons_True, filter_nil; [done|].
    intros Hin. by apply Ho, completed_recorded.
  - rewrite app_nil_r.
    rewrite complete_NoDup by (apply NoDup_filter, Hh').
    rewrite list_filter_filter. apply list_filter_iff. intros k.
    rewrite not_elem_of_app, list_elem_of_singleton. naive_solver.
Qed.

Lemma history_app pre rest : history (pre ++ rest) → history pre.
Proof.
  induction rest as [|o rest IH] using rev_ind.
  - by rewrite app_nil_r.
  - rewrite app_assoc. by intros [Hh _]%history_snoc; apply IH.
Qed.

Lemma history_prefix pre ops : pre `prefix_of` ops → history ops → history pre.
Proof. intros [rest ->]. apply history_app. Qed.

Lemma run_NoDup ops : history ops → NoDup (run [] ops).
Proof. intros Hh. rewrite run_history by done. apply NoDup_filter, Hh. Qed.

Lemma filter_before (P : string → Prop) `{!∀ k, Decision (P k)} a b l :
  before a b l → P a → P b → before a b (filter P l).
Proof.
  intros (l1 & l2 & l3 & ->) Ha Hb.
  exists (filter P l1), (filter P l2), (filter P l3).
  rewrite filter_app, filter_cons_True by done.
  by rewrite filter_app, filter_cons_True by done.
Qed.

(** C1: along every history (unique keys, a key completed only after it was
    recorded) and at every instant of it, the members of the in-progress
    sequence are the recorded keys minus the completed keys, no key occurs
    twice, and two members recorded in the order A, B occur in the order
    A, B in the sequence, whatever the order of the completions was. *)
Theorem in_progress_sequence_invariant (ops pre : list op) :
  history ops →
  pre `prefix_of` ops →
  list_to_set (run [] pre) =@{gset string}
    list_to_set (recorded pre) ∖ list_to_set (completed pre)
  ∧ NoDup (run [] pre)
  ∧ ∀ a b, before a b (recorded pre) →
           a ∈ run [] pre → b ∈ run [] pre → before a b (run [] pre).
Proof.
  intros Hops Hpre. pose proof (history_prefix _ _ Hpre Hops) as Hh.
  split; [|split].
  - apply set_eq. intros k. rewrite run_history by done.
    rewrite elem_of_difference, !elem_of_list_to_set, list_elem_of_filter.
    naive_solver.
  - by apply run_NoDup.
  - intros a b Hab. rewrite run_history by done.
    rewrite !list_elem_of_filter. intros [Ha _] [Hb _].
    by apply filter_before.
Qed.

Lemma in_progress_sequence_invariant_witness :
  let ops := [Found "a"; Found "b"; Found "c"; Finished "b"; Finished "a"] in
  let pre := [Found "a"; Found "b"; Found "c"; Finished "b"] in
  run [] pre = ["a"; "c"]
  ∧ list_to_set (run [] pre) =@{gset string}
      list_to_set (recorded pre) ∖ list_to_set (completed pre)
  ∧ before "a" "c" (run [] pre).
Proof.
  intros ops pre.
  assert (Hh : history ops).
  { split; [|simpl; repeat split; by_compute].
    change (recorded ops) with ["a"; "b"; "c"]%string. by_compute. }
  assert (Hp : pre `prefix_of` ops) by (by exists [Finished "a"]).
  destruct (in_progress_sequence_invariant ops pre Hh Hp) as (Hset & _ & Hord).
  split; [reflexivity|]. split; [exact Hset|].
  apply Hord.
  - by exists [], ["b"%string], [].
  - change (run [] pre) with ["a"; "c"]%string. rewrite !elem_of_cons; auto.
  - change (run [] pre) with ["a"; "c"]%string. rewrite !elem_of_cons; auto.
Defined.

(** C2: along every history and at every instant of it, when the head of the
    in-progress sequence is K, every key recorded before K has already been
    completed. *)
Theorem head_is_safe_resume_point (ops pre : list op) (K : string) :
  history ops →
  pre `prefix_of` ops →
  head (run [] pre) = Some K →
  ∀ a, before a K (recorded pre) → a ∈ completed pre.
Proof.
  intros Hops Hpre Hhead a (l1 & l2 & l3 & Hrec).
  pose proof (history_prefix _ _ Hpre Hops) as Hh.
  destruct (decide (a ∈ completed pre)) as [|Hna]; [done|exfalso].
  rewrite run_history in Hhead by done.
  destruct Hh as [Hnd _]. rewrite Hrec in Hnd, Hhead.
  apply NoDup_app in Hnd as (_ & Hdisj & Hnd').
  apply NoDup_cons in Hnd' as [HaK _].
  rewrite filter_app, filter_cons_True in Hhead by done.
  destruct (filter _ l1) as [|x xs] eqn:Hf; simpl in Hhead.
  - injection Hhead as ->. apply HaK. rewrite elem_of_app, elem_of_cons. auto.
  - injection Hhead as ->.
    assert (HK : K ∈ filter (λ k : string, k ∉ completed pre) l1)
      by (rewrite Hf; by left).
    apply list_elem_of_filter in HK as [_ HK].
    apply (Hdisj K HK). rewrite elem_of_cons, elem_of_app, elem_of_cons. auto.
Qed.

Lemma head_is_safe_resume_point_witness :
  let ops := [Found "a"; Found "b"; Found "c"; Finished "b"; Finished "a"] in
  head (run [] ops) = Some "c"%string ∧ "a"%string ∈ completed ops.
Proof.
  intros ops. split; [reflexivity|].
  apply (head_is_safe_resume_point ops ops "c").
  - split; [|simpl; repeat split; by_compute].
    change (recorded ops) with ["a"; "b"; "c"]%string. by_compute.
  - done.
  - reflexivity.
  - by exists [], ["b"%string], [].
Defined.

(** C10: a completion for a key that is not a member leaves the sequence
    unchanged; a completion for a member removes its first occurrence and
    nothing else, the other members keeping their order. *)
Theorem complete_frame (finished : string) (l : inProgress) :
  (finished ∉ l → complete finished l = l)
  ∧ (∀ l1 l2, l = l1 ++ finished :: l2 → finished ∉ l1 →
              complete finished l = l1 ++ l2).
Proof.
  split; [apply complete_not_elem|].
  intros l1 l2 -> Hl1. by apply complete_first.
Qed.

Lemma complete_frame_witness :
  complete "b" ["a"; "c"] = ["a"; "c"]%string
  ∧ complete "b" ["a"; "b"; "c"; "b"] = ["a"; "c"; "b"]%string.
Proof.
  split.
  - apply (proj1 (complete_frame "b" ["a"; "c"]%string)).
    by_compute.
  - apply (proj2 (complete_frame "b" ["a"; "b"; "c"; "b"]%string)
             ["a"%string] ["c"; "b"]%string); [reflexivity|].
    by_compute.
Defined.

End TrackerProofs.

(** ** Go's string functions *)

Section GoStringsProofs.
Import GoStrings.

Lemma length_append p q :
  String.length (p +:+ q) = (String.length p + String.length q)%nat.
Proof. induction p as [|a p IH]; simpl; [done|]. by rewrite IH. Qed.

Lemma append_cons a p q : String a p +:+ q = String a (p +:+ q).
Proof. reflexivity. Qed.

Lemma append_empty_r p : p +:+ "" = p.
Proof. induction p as [|a p IH]; [done|]. by rewrite append_cons, IH. Qed.

Lemma append_assoc p q r : (p +:+ q) +:+ r = p +:+ q +:+ r.
Proof. induction p as [|a p IH]; [done|]. by rewrite !append_cons, IH. Qed.

Lemma sliceFrom_append p q : sliceFrom (String.length p) (p +:+ q) = q.
Proof. induction p as [|a p IH]; simpl; [done|]. exact IH. Qed.

Lemma sliceFrom_split n s :
  (n ≤ String.length s)%nat →
  ∃ p, s = p +:+ sliceFrom n s ∧ String.length p = n.
Proof.
  revert s. induction n as [|n IH]; intros s Hn.
  - by exists ""%string.
  - destruct s as [|a s]; simpl in *; [lia|].
    destruct (IH s) as (p & Hp & Hlen); [lia|].
    exists (String a p). simpl. split; [|by rewrite Hlen].
    by rewrite append_cons, <- Hp.
Qed.

Lemma HasPrefix_spec s pre : HasPrefix s pre = true ↔ ∃ q, s = pre +:+ q.
Proof.
  revert s. induction pre as [|a pre IH]; intros s.
  - split; [by exists s|by destruct s].
  - destruct s as [|b s]; simpl.
    + split; [done|]. intros [q Hq]. by rewrite append_cons in Hq.
    + rewrite andb_true_iff, bool_decide_eq_true, IH. split.
      * intros [-> [q ->]]. by exists q.
      * intros [q Hq]. rewrite append_cons in Hq. injection Hq as -> ->.
        split; [done|]. by exists q.
Qed.

Lemma Contains_cons a s substr :
  Contains (String a s) substr = HasPrefix (String a s) substr || Contains s substr.
Proof. reflexivity. Qed.

Lemma Contains_spec s substr : Contains s substr = true ↔ occursIn substr s.
Proof.
  unfold occursIn. induction s as [|a s IH].
  - change (Contains "" substr) with (HasPrefix "" substr || false).
    rewrite orb_false_r, HasPrefix_spec. split.
    + intros [q Hq]. by exists ""%string, q.
    + intros (p & q & Hpq). destruct p as [|b p]; [by exists q|].
      by rewrite append_cons in Hpq.
  - rewrite Contains_cons, orb_true_iff, IH, HasPrefix_spec. split.
    + intros [[q Hq]|(p & q & ->)].
      * by exists ""%string, q.
      * by exists (String a p), q.
    + intros (p & q & Hpq). destruct p as [|b p].
      * left. by exists q.
      * right. rewrite append_cons in Hpq. injection Hpq as -> ->. by exists p, q.
Qed.

Lemma HasSuffix_spec s suffix : HasSuffix s suffix = true ↔ endsWith s suffix.
Proof.
  unfold HasSuffix, endsWith.
  rewrite andb_true_iff, !bool_decide_eq_true. split.
  - intros [Hlen Hs].
    destruct (sliceFrom_split (String.length s - String.length suffix) s)
      as (p & Hp & _); [lia|].
    exists p. by rewrite Hs in Hp.
  - intros [p ->]. rewrite length_append. split; [lia|].
    replace (String.length p + String.length suffix - String.length suffix)%nat
      with (String.length p) by lia.
    apply sliceFrom_append.
Qed.

Lemma Contains_empty s : Contains s "" = true.
Proof. apply Contains_spec. by exists ""%string, s. Qed.

End GoStringsProofs.

(** ** Discovery *)

Section DiscoveryProofs.
Import GoStrings Discovery.

Lemma process_out f c path err :
  (process f c path err).1.2 = [] ∨
  (process f c path err).1.2 = [ToFoundFiles path; ToWhisperFiles path].
Proof.
  unfold process. destruct err; simpl; [by left|].
  repeat (case_match; simpl; auto).
Qed.

Lemma process_error f c path e :
  (process f c path (Some e)).1.2 = [] ∧ (process f c path (Some e)).2 = Some e.
Proof. done. Qed.

(** C5: the key of an entry that the walk hands to [process] without an error
    is forwarded to extraction exactly when it ends with the archive suffix,
    does not contain the exclude substring if one is configured, contains the
    include substring if one is configured, and is not suppressed by the
    skip-until cursor. *)
Theorem process_forwards_iff (f : filters) (c : cursor) (path : string) :
  ToWhisperFiles path ∈ (process f c path None).1.2 ↔
    endsWith path ".wsp"
    ∧ (exclude f ≠ "" → ¬ occursIn (exclude f) path)
    ∧ (include f ≠ "" → occursIn (include f) path)
    ∧ ¬ suppressed c path.
Proof.
  assert (Hexc : (exclude f ≠ "" → ¬ occursIn (exclude f) path) ↔
                 bool_decide (exclude f ≠ "") && Contains path (exclude f) = false).
  { rewrite <- Contains_spec, andb_false_iff, bool_decide_eq_false.
    destruct (Contains path (exclude f)); [|naive_solver].
    destruct (decide (exclude f = ""%string)); naive_solver. }
  assert (Hinc : (include f ≠ "" → occursIn (include f) path) ↔
                 Contains path (include f) = true).
  { rewrite <- Contains_spec. split; [|done].
    destruct (decide (include f = ""%string)) as [He|Hne].
    - intros _. rewrite He. apply Contains_empty.
    - intros Hi. by apply Hi. }
  assert (Hsk : ¬ suppressed c path ↔
                bool_decide (skipUntil
                  (if decide (path = skipUntil c)
                   then {| skipUntil := ""; skipCounter := skipCounter c |}
                   else c) ≠ "") = false).
  { unfold suppressed. rewrite bool_decide_eq_false.
    destruct (decide (path = skipUntil c)); simpl; [naive_solver|].
    destruct (decide (skipUntil c = ""%string)); naive_solver. }
  rewrite Hexc, Hinc, Hsk, <- HasSuffix_spec. unfold process.
  destruct (HasSuffix path ".wsp"); simpl; [|rewrite elem_of_nil; naive_solver].
  destruct (bool_decide (exclude f ≠ "") && Contains path (exclude f)); simpl;
    [rewrite elem_of_nil; naive_solver|].
  destruct (Contains path (include f)); simpl; [|rewrite elem_of_nil; naive_solver].
  destruct (bool_decide _); simpl; [rewrite elem_of_nil; naive_solver|].
  rewrite !elem_of_cons. naive_solver.
Qed.

Lemma process_no_error f c path : (process f c path None).2 = None.
Proof.
  unfold process.
  destruct (negb _); [done|]. destruct (_ && _); [done|].
  destruct (negb _); [done|]. by destruct (bool_decide _).
Qed.

(** The walk stops at the first entry it hands over with an error, and
    returns that error. *)
Lemma Walk_cons f c path err rest :
  Walk f c ((path, err) :: rest) =
  match process f c path err with
  | (c1, out, Some e) => (c1, out, Some e)
  | (c1, out, None) =>
      let '(c2, out2, r) := Walk f c1 rest in (c2, out ++ out2, r)
  end.
Proof. reflexivity. Qed.

Lemma Walk_error f c before path e after :
  Forall (λ entry, entry.2 = None) before →
  (Walk f c (before ++ (path, Some e) :: after)).2 = Some e.
Proof.
  revert c. induction before as [|[p err] before IH]; intros c Hbefore.
  - done.
  - apply Forall_cons in Hbefore as [Herr Hbefore]. simpl in Herr. subst err.
    rewrite <- app_comm_cons, Walk_cons.
    pose proof (process_no_error f c p) as Hr.
    destruct (process f c p None) as [[c1 out] r]. simpl in Hr. subst r.
    specialize (IH c1 Hbefore).
    by destruct (Walk f c1 _) as [[c2 out2] r2].
Qed.

End DiscoveryProofs.

(** ** The extract pool *)

Section ExtractProofs.
Import Whisper Extract Dumped.
Context {float64 : Type}.
Implicit Types (w : Whisper float64) (points : list (Point float64)).
Implicit Types (dumps : nat → list (Point float64)).
Implicit Types (fl : flags) (open : source float64).

Lemma coarsestToFinest_split n i :
  (i < n)%nat → ∃ above, coarsestToFinest n = above ++ i :: coarsestToFinest i.
Proof.
  induction n as [|n IH]; [lia|]. intros Hi.
  destruct (decide (i = n)) as [->|Hne]; [by exists []|].
  destruct IH as [above Habove]; [lia|].
  exists (n :: above). simpl. by rewrite Habove.
Qed.

Lemma dumpsInOrder_S dumps n :
  dumpsInOrder dumps (S n) = filter hasData (dumps n) ++ dumpsInOrder dumps n.
Proof. reflexivity. Qed.

Lemma dumpsInOrder_split dumps n i :
  (i < n)%nat →
  ∃ before, dumpsInOrder dumps n =
            before ++ filter hasData (dumps i) ++ dumpsInOrder dumps i.
Proof.
  intros [above Habove]%coarsestToFinest_split.
  exists (concat ((λ i, filter hasData (dumps i)) <$> above)).
  unfold dumpsInOrder. by rewrite Habove, fmap_app, concat_app.
Qed.

Lemma dumpArchives_ok skip w dumps n points :
  (∀ i, (i < n)%nat → DumpArchive w i = Ok (dumps i)) →
  dumpArchives skip w n points = Some (points ++ dumpsInOrder dumps n).
Proof.
  revert points. induction n as [|n IH]; intros points Hok; simpl.
  - by rewrite app_nil_r.
  - rewrite Hok by lia. rewrite IH by (intros; apply Hok; lia).
    by rewrite dumpsInOrder_S, app_assoc.
Qed.

(** Whatever the dumps return, the loop only ever appends points that hold
    data. *)
Lemma dumpArchives_hasData skip w n points result :
  dumpArchives skip w n points = Some result →
  Forall hasData points → Forall hasData result.
Proof.
  revert points. induction n as [|n IH]; intros points; simpl.
  - by intros [= ->].
  - destruct (DumpArchive w n) as [allPoints|e].
    + intros Hd Hp. apply (IH _ Hd). apply Forall_app. split; [done|].
      apply Forall_forall. by intros p [Hp' _]%list_elem_of_filter.
    + destruct skip; [|done]. apply IH.
Qed.

Lemma filter_none {A} (P : A → Prop) `{!∀ x, Decision (P x)} (l : list A) :
  (∀ x, x ∈ l → ¬ P x) → filter P l = [].
Proof.
  induction l as [|x l IH]; intros Hl; [done|].
  rewrite filter_cons_False by (apply Hl; by left).
  apply IH. intros y Hy. apply Hl. by right.
Qed.

Lemma filter_timestamp_hasData (t : Z) points :
  t ≠ 0 →
  filter (λ p, Timestamp p = t) (filter hasData points) =
  filter (λ p, Timestamp p = t) points.
Proof.
  intros Ht. rewrite list_filter_filter. apply list_filter_iff.
  intros p. unfold hasData. naive_solver.
Qed.

Lemma filter_timestamp_absent (t : Z) dumps n :
  (∀ i, (i < n)%nat → ∀ p, p ∈ dumps i → Timestamp p ≠ t) →
  filter (λ p, Timestamp p = t) (dumpsInOrder dumps n) = [].
Proof.
  induction n as [|n IH]; intros Habs; [done|].
  rewrite dumpsInOrder_S, filter_app.
  rewrite IH by (intros i Hi q Hq; apply (Habs i); [lia|done]).
  rewrite app_nil_r. apply filter_none.
  intros p [_ Hp]%list_elem_of_filter. by apply (Habs n); [lia|].
Qed.

Lemma dumpArchives_skip skip w n points :
  skip = true → is_Some (dumpArchives skip w n points).
Proof.
  intros ->. revert points. induction n as [|n IH]; intros points; simpl; [done|].
  destruct (DumpArchive w n); apply IH.
Qed.

Lemma dumpArchives_fatal w n points i e :
  (i < n)%nat → DumpArchive w i = Err e → dumpArchives false w n points = None.
Proof.
  revert points. induction n as [|n IH]; intros points Hi He; [lia|]. simpl.
  destruct (DumpArchive w n) as [allPoints|e'] eqn:Hn; [|done].
  apply IH; [|done]. destruct (decide (i = n)) as [->|]; [congruence|lia].
Qed.

(** With skipping, a unit that cannot be opened, decoded or range-read is
    given up. *)
Lemma whisperWorker_abandons fl open path k :
  skipWhisperErrors fl = true →
  (∀ i, k ≠ DumpFails i) →
  fails fl open path k →
  whisperWorker fl open path = Abandoned.
Proof.
  unfold whisperWorker. intros Hskip Hk.
  destruct k as [| |i|]; simpl.
  - intros [e ->]. by rewrite Hskip.
  - intros [e ->]. by rewrite Hskip.
  - by destruct (Hk i).
  - intros (Hall & w & e & -> & Hf). by rewrite Hall, Hf, Hskip.
Qed.

Lemma dumpArchives_readable w n points :
  dumpArchives true w n points = Some (points ++ dumpsInOrder (readable w) n).
Proof.
  revert points. induction n as [|n IH]; intros points; simpl.
  - by rewrite app_nil_r.
  - rewrite dumpsInOrder_S. unfold readable at 1.
    destruct (DumpArchive w n) as [allPoints|e]; rewrite IH.
    + by rewrite app_assoc.
    + done.
Qed.

(** With skipping, an archive that cannot be dumped is passed over: the
    batch handed on is built from the archives that can. *)
Lemma whisperWorker_dump_passed_over fl open path i :
  skipWhisperErrors fl = true →
  fails fl open path (DumpFails i) →
  ∃ w, open path = Ok (Ok w)
       ∧ readable w i = []
       ∧ whisperWorker fl open path =
         Forwarded {| Path := path;
                      Points := dumpsInOrder (readable w) (length (Archives w)) |}.
Proof.
  unfold whisperWorker. intros Hskip (Hall & w & e & Hopen & _ & He).
  exists w. split; [done|]. split; [unfold readable; by rewrite He|].
  by rewrite Hopen, Hall, Hskip, dumpArchives_readable.
Qed.

(** With skipping, a full dump in which an archive cannot be dumped still
    hands a batch on. *)
Lemma whisperWorker_dump_skipped fl open path i :
  skipWhisperErrors fl = true →
  fails fl open path (DumpFails i) →
  ∃ points, whisperWorker fl open path = Forwarded {| Path := path; Points := points |}.
Proof.
  unfold whisperWorker. intros Hskip (Hall & w & e & -> & _ & _).
  rewrite Hall.
  destruct (dumpArchives_skip (skipWhisperErrors fl) w (length (Archives w)) [] Hskip)
    as [points ->].
  by exists points.
Qed.

(** Without skipping, every failure ends in [exit <- 2]. *)
Lemma whisperWorker_fatal fl open path k :
  skipWhisperErrors fl = false →
  fails fl open path k →
  whisperWorker fl open path = ExitRequested 2.
Proof.
  unfold whisperWorker. intros Hskip.
  destruct k as [| |i|]; simpl.
  - intros [e ->]. by rewrite Hskip.
  - intros [e ->]. by rewrite Hskip.
  - intros (Hall & w & e & -> & Hi & Hd).
    by rewrite Hall, Hskip, (dumpArchives_fatal _ _ _ _ _ Hi Hd).
  - intros (Hall & w & e & -> & Hf). by rewrite Hall, Hf, Hskip.
Qed.

Lemma whisperWorker_exit_code fl open path code :
  whisperWorker fl open path = ExitRequested code → code = 2.
Proof.
  unfold whisperWorker.
  destruct (open path) as [[w|e]|e];
    [|destruct (skipWhisperErrors fl); by intros [= <-]..].
  destruct (all fl).
  - destruct (dumpArchives _ _ _ _); [done|by intros [= <-]].
  - destruct (FetchUntil _ _ _); [done|].
    destruct (skipWhisperErrors fl); by intros [= <-].
Qed.

Lemma finestFirst_lt w i j a b :
  finestFirst w →
  Archives w !! i = Some a → Archives w !! j = Some b →
  SecondsPerPoint a < SecondsPerPoint b → (i < j)%nat.
Proof.
  intros Hff Ha Hb Hlt.
  destruct (decide (i < j)%nat) as [|Hge]; [done|exfalso].
  destruct (decide (i = j)) as [->|Hne].
  - rewrite Ha in Hb. injection Hb as ->. lia.
  - pose proof (Hff j i b a Hb Ha). lia.
Qed.

(** C3: in full-dump mode, for a unit whose archives are all read, the points
    handed on are the dumps of the archives one after the other from the
    coarsest resolution to the finest, without the slots that hold no data;
    the points of a finer archive come after those of a coarser one, and for
    a timestamp several archives supply, the point a last-write-wins load
    keeps is the one of the finest of them. *)
Theorem full_dump_coarsest_to_finest (fl : flags) (open : source float64)
    (path : string) w dumps :
  all fl = true →
  open path = Ok (Ok w) →
  (∀ i, (i < length (Archives w))%nat → DumpArchive w i = Ok (dumps i)) →
  finestFirst w →
  let points := dumpsInOrder dumps (length (Archives w)) in
  whisperWorker fl open path = Forwarded {| Path := path; Points := points |}
  ∧ (∀ i j a b,
       Archives w !! i = Some a → Archives w !! j = Some b →
       SecondsPerPoint a < SecondsPerPoint b →
       ∃ l1 l2 l3, points = l1 ++ filter hasData (dumps j) ++ l2
                               ++ filter hasData (dumps i) ++ l3)
  ∧ (∀ t i a,
       t ≠ 0 → Archives w !! i = Some a →
       (∃ p, p ∈ dumps i ∧ Timestamp p = t) →
       (∀ j b, Archives w !! j = Some b →
               SecondsPerPoint b < SecondsPerPoint a →
               ∀ p, p ∈ dumps j → Timestamp p ≠ t) →
       survivor t points = survivor t (dumps i)).
Proof.
  intros Hall Hopen Hok Hff points. split; [|split].
  - unfold whisperWorker. rewrite Hopen, Hall.
    by rewrite (dumpArchives_ok _ _ dumps) by done.
  - intros i j a b Ha Hb Hlt.
    pose proof (finestFirst_lt _ _ _ _ _ Hff Ha Hb Hlt) as Hij.
    apply lookup_lt_Some in Hb.
    destruct (dumpsInOrder_split dumps _ _ Hb) as [l1 Hl1].
    destruct (dumpsInOrder_split dumps _ _ Hij) as [l2 Hl2].
    exists l1, l2, (dumpsInOrder dumps i). unfold points.
    by rewrite Hl1, Hl2.
  - intros t i a Ht Ha (p & Hp & Hpt) Hfinest.
    pose proof (lookup_lt_Some _ _ _ Ha) as Hi.
    destruct (dumpsInOrder_split dumps _ _ Hi) as [l1 Hl1].
    unfold survivor, points. rewrite Hl1, !filter_app.
    rewrite filter_timestamp_hasData by done.
    rewrite filter_timestamp_absent, app_nil_r.
    + rewrite last_app.
      destruct (last (filter _ (dumps i))) as [q|] eqn:Hlast; [done|].
      apply last_None in Hlast. exfalso.
      eapply (filter_nil_not_elem_of (λ q, Timestamp q = t));
        [exact Hlast|exact Hpt|exact Hp].
    + intros j Hj q Hq.
      destruct (lookup_lt_is_Some_2 (Archives w) j) as [b Hb]; [lia|].
      apply (Hfinest j b Hb); [|done]. by apply (Hff j i).
Qed.


End ExtractProofs.

Section ExtractWitnesses.
Import Whisper Extract Sample.

Lemma twoArchives_finestFirst : finestFirst twoArchives.
Proof.
  intros [|[|i]] [|[|j]] a b Ha Hb Hij; simpl in *; simplify_eq; simpl; lia.
Qed.

Lemma full_dump_coarsest_to_finest_witness :
  whisperWorker (fullDump false) tree "/w/a.wsp" =
    Forwarded {| Path := "/w/a.wsp"; Points := [point 3600 2; point 3600 1] |}
  ∧ survivor 3600 [point 3600 2; point 3600 1] = Some (point 3600 1).
Proof.
  destruct (full_dump_coarsest_to_finest (fullDump false) tree "/w/a.wsp"
              twoArchives twoArchivesDumps) as (Hw & _ & Hs).
  - reflexivity.
  - reflexivity.
  - intros [|[|i]] Hi; [reflexivity..|simpl in Hi; lia].
  - exact twoArchives_finestFirst.
  - split; [exact Hw|].
    apply (Hs 3600 0%nat {| SecondsPerPoint := 60; Whisper.Points := 2 |}).
    + lia.
    + reflexivity.
    + exists (point 3600 1). split; [by left|reflexivity].
    + intros [|[|j]] b Hb Hlt; simpl in Hb; simplify_eq; simpl in Hlt; lia.
Defined.


End ExtractWitnesses.

(** ** The load pool *)

Section LoadProofs.
Import Load.
Context {BatchPoints : Type}.
Implicit Types (b : BatchPoints) (results : list bool).

(** [n] failed attempts: a write and the five seconds of sleep, [n] times. *)
Lemma writeLoop_retries b path n results :
  writeLoop true b path (replicate n false ++ results) =
  (mjoin (replicate n [Write b; Sleep 5]) ++ (writeLoop true b path results).1,
   (writeLoop true b path results).2).
Proof.
  induction n as [|n IH]; simpl.
  - by destruct (writeLoop true b path results).
  - rewrite IH. by destruct (writeLoop true b path results).
Qed.

Lemma writeLoop_finished skip b path results p :
  FinishedFile p ∈ (writeLoop skip b path results).1 →
  p = path
  ∧ ∃ n rest, results = replicate n false ++ true :: rest
              ∧ (writeLoop skip b path results).1 =
                mjoin (replicate n [Write b; Sleep 5]) ++ [Write b; FinishedFile path]
              ∧ (writeLoop skip b path results).2 = Done.
Proof.
  induction results as [|[|] results IH]; simpl.
  - by intros ?%elem_of_nil.
  - rewrite !elem_of_cons, elem_of_nil. intros [|[[= ->]|]]; [done| |done].
    split; [done|]. by exists 0%nat, results.
  - destruct skip; simpl.
    + destruct (writeLoop true b path results) as [acts st] eqn:Hw. simpl in *.
      rewrite !elem_of_cons. intros [|[|Hin]]; [done..|].
      destruct (IH Hin) as (-> & n & rest & -> & -> & ->).
      split; [done|]. by exists (S n), rest.
    + rewrite !elem_of_cons, elem_of_nil. naive_solver.
Qed.

Lemma writeLoop_exit skip b path results code :
  ExitRequest code ∈ (writeLoop skip b path results).1 → skip = false ∧ code = 2.
Proof.
  induction results as [|[|] results IH]; simpl.
  - by intros ?%elem_of_nil.
  - rewrite !elem_of_cons, elem_of_nil. naive_solver.
  - destruct skip; simpl.
    + destruct (writeLoop true b path results) as [acts st] eqn:Hw. simpl in *.
      rewrite !elem_of_cons. intros [|[|Hin]]; [done..|]. by apply IH.
    + rewrite !elem_of_cons, elem_of_nil. naive_solver.
Qed.

(** C7: with write-failure-skipping, after any number of failed writes the
    worker has written the same batch that many times, slept five seconds
    after each, reported nothing and is about to write again; the completion
    is reported right after the write that succeeds, and never without one.
    Without skipping, a failed write is followed by [exit <- 2]. *)
Theorem write_failure_policy (b : BatchPoints) (path : string) :
  (∀ n, writeLoop true b path (replicate n false) =
        (mjoin (replicate n [Write b; Sleep 5]), Retrying))
  ∧ (∀ n rest, writeLoop true b path (replicate n false ++ true :: rest) =
               (mjoin (replicate n [Write b; Sleep 5])
                ++ [Write b; FinishedFile path], Done))
  ∧ (∀ skip results p,
       FinishedFile p ∈ (writeLoop skip b path results).1 →
       p = path ∧ ∃ n rest,
         results = replicate n false ++ true :: rest
         ∧ (writeLoop skip b path results).1 =
           mjoin (replicate n [Write b; Sleep 5]) ++ [Write b; FinishedFile path])
  ∧ (∀ rest, writeLoop false b path (false :: rest) =
             ([Write b; ExitRequest 2], Exiting)).
Proof.
  split; [|split; [|split]].
  - intros n. rewrite <- (app_nil_r (replicate n false)), writeLoop_retries.
    simpl. by rewrite app_nil_r.
  - intros n rest. by rewrite writeLoop_retries.
  - intros skip results p Hin.
    destruct (writeLoop_finished _ _ _ _ _ Hin) as (-> & n & rest & Hr & Ha & _).
    split; [done|]. by exists n, rest.
  - done.
Qed.

End LoadProofs.

Lemma write_failure_policy_witness :
  Load.writeLoop true "batch" "/w/a.wsp" [false; false; true] =
    ([Load.Write "batch"; Load.Sleep 5; Load.Write "batch"; Load.Sleep 5;
      Load.Write "batch"; Load.FinishedFile "/w/a.wsp"], Load.Done)
  ∧ ∃ n rest, [false; false; true] = replicate n false ++ true :: rest.
Proof.
  destruct (write_failure_policy "batch" "/w/a.wsp") as (_ & Hok & Honly & _).
  split; [exact (Hok 2%nat [])|].
  destruct (Honly true [false; false; true] "/w/a.wsp") as (_ & n & rest & Hr & _).
  - simpl. rewrite !elem_of_cons. auto 10.
  - by exists n, rest.
Defined.

(** ** The pipeline *)

Section PipelineProofs.
Import OrderTracker Discovery Whisper Extract Dumped Pipeline.
Context {float64 : Type}.
Variable fl : flags.
Variable open : source float64.
Implicit Types (s : system (float64 := float64)) (keys : list string).

Lemma whisperWorker_path p serie :
  whisperWorker fl open p = Forwarded serie → Path serie = p.
Proof.
  unfold whisperWorker.
  destruct (open p) as [[w|e]|e]; [|by destruct (skipWhisperErrors fl)..].
  destruct (all fl).
  - destruct (dumpArchives _ _ _ _); [|done]. by intros [= <-].
  - destruct (FetchUntil _ _ _); [|by destruct (skipWhisperErrors fl)].
    by intros [= <-].
Qed.

Lemma upcoming_announce keys : upcoming (announce keys) = keys.
Proof. induction keys as [|p keys IH]; [done|]. simpl. by f_equal. Qed.

Lemma handedOver_announce keys : handedOver (announce keys) = [].
Proof. by destruct keys. Qed.

Lemma pipelineInv_start keys :
  pipelineInv keys (start (float64 := float64) (announce keys)).
Proof.
  repeat split; simpl.
  - exists keys. by left.
  - by rewrite upcoming_announce.
  - unfold whereabouts. simpl. by rewrite handedOver_announce.
Qed.

Lemma pipelineInv_step keys s s' :
  pipelineInv keys s → step fl open s s' → pipelineInv keys s'.
Proof.
  intros (Hshape & Hkeys & Hwhere & Hcar & Hrun) Hstep.
  unfold whereabouts in Hwhere.
  destruct Hstep as [p d s Hd|p d s Hd|p serie l1 l2 s Hex Hw|p l1 l2 s Hex Hw
                    |serie l1 l2 s Hld];
    unfold pipelineInv, whereabouts; simpl.
  - rewrite Hd in Hshape, Hkeys, Hwhere.
    destruct Hshape as [ks [Hks|[q Hq]]]; [|done].
    destruct ks as [|k ks]; [done|]. injection Hks as -> ->.
    rewrite recorded_snoc, completed_snoc, app_nil_r, run_snoc, <- Hrun.
    simpl in *. rewrite upcoming_announce in *.
    repeat split.
    + exists ks. right. by exists k.
    + by rewrite <- app_assoc.
    + rewrite <- Hwhere. apply Permutation_cons_append.
    + by apply completedAfterRecorded_snoc.
  - rewrite Hd in Hshape, Hkeys, Hwhere.
    destruct Hshape as [ks [Hks|[q Hq]]]; [by destruct ks|].
    injection Hq as -> ->. simpl in *.
    rewrite handedOver_announce. repeat split; [|done..].
    exists ks. by left.
  - rewrite Hex in Hwhere. apply whisperWorker_path in Hw as ->.
    repeat split; [done..| |done|done].
    rewrite <- Hwhere. solve_Permutation.
  - rewrite Hex in Hwhere.
    repeat split; [done..| |done|done].
    rewrite <- Hwhere. solve_Permutation.
  - rewrite Hld in Hwhere.
    rewrite recorded_snoc, completed_snoc, app_nil_r, run_snoc, <- Hrun.
    assert (Hin : Path serie ∈ recorded (trackerLog s)).
    { rewrite <- Hwhere, fmap_app, fmap_cons, !elem_of_app, elem_of_cons. auto 10. }
    repeat split; [done|done| |].
    + rewrite <- Hwhere, !fmap_app, fmap_cons. solve_Permutation.
    + apply completedAfterRecorded_snoc. auto.
Qed.

Lemma pipelineInv_reachable keys s :
  reachable fl open (start (announce keys)) s → pipelineInv keys s.
Proof.
  revert s. apply rtc_ind_r.
  - apply pipelineInv_start.
  - intros s1 s2 _ Hstep IH. by apply (pipelineInv_step _ s1).
Qed.

Lemma Walk_announce (f : filters) (c : cursor) entries :
  ∃ keys, (Walk f c entries).1.2 = announce keys ∧ keys `sublist_of` entries.*1.
Proof.
  revert c. induction entries as [|[path err] entries IH]; intros c.
  - by exists [].
  - simpl. pose proof (process_out f c path err) as Hout.
    destruct (process f c path err) as [[c1 out] [e|]] eqn:Hp; simpl in *.
    + destruct Hout as [-> | ->].
      * exists []. split; [done|]. apply sublist_nil_l.
      * exists [path]. split; [done|]. apply sublist_skip, sublist_nil_l.
    + destruct (IH c1) as (keys & Hkeys & Hsub).
      destruct (Walk f c1 entries) as [[c2 out2] r]. simpl in *. subst out2.
      destruct Hout as [-> | ->].
      * exists keys. split; [done|]. by apply sublist_cons.
      * exists (path :: keys). split; [done|]. by apply sublist_skip.
Qed.

(** C9: [process] sends every key it forwards first to [keepOrder] and then
    to the extract pool, and both channels are rendezvous; so in every state
    the program reaches, each key a whisper worker holds and each batch an
    influx worker holds has been recorded by [keepOrder], and [keepOrder]
    has received no completion for a key it had not recorded. *)
Theorem recorded_before_extracted (f : filters) (c : cursor)
    (entries : list (string * option string)) s :
  reachable fl open (start (Walk f c entries).1.2) s →
  (∃ keys, (Walk f c entries).1.2 = announce keys)
  ∧ (∀ p, p ∈ extracting s → p ∈ recorded (trackerLog s))
  ∧ (∀ serie, serie ∈ loading s → Path serie ∈ recorded (trackerLog s))
  ∧ completedAfterRecorded [] (trackerLog s).
Proof.
  destruct (Walk_announce f c entries) as (keys & Hkeys & _).
  rewrite Hkeys. intros (_ & _ & Hwhere & Hcar & _)%pipelineInv_reachable.
  split; [by exists keys|]. unfold whereabouts in Hwhere.
  repeat split; [| |done].
  - intros p Hp. rewrite <- Hwhere, !elem_of_app. auto.
  - intros serie Hserie. rewrite <- Hwhere, !elem_of_app.
    right. right. left. by apply list_elem_of_fmap_2.
Qed.

Lemma abandoned_step s s' : step fl open s s' → abandoned s ⊆ abandoned s'.
Proof. destruct 1; simpl; set_solver. Qed.

Lemma abandoned_reachable s s' :
  reachable fl open s s' → abandoned s ⊆ abandoned s'.
Proof.
  induction 1 as [|s1 s2 s3 Hstep _ IH]; [done|].
  etrans; [by apply abandoned_step|done].
Qed.

Lemma pipeline_history keys s :
  NoDup keys → pipelineInv keys s → history (trackerLog s).
Proof.
  intros Hnd (_ & Hkeys & _ & Hcar & _). split; [|done].
  rewrite <- Hkeys in Hnd. by apply NoDup_app in Hnd as [? _].
Qed.

(** A path that the extract pool has given up is in the list of [keepOrder],
    and nowhere else. *)
Lemma abandoned_in_progress keys s p :
  NoDup keys →
  reachable fl open (start (announce keys)) s →
  p ∈ abandoned s →
  p ∈ firstInProgress s ∧ (p ∉ extracting s) ∧ (p ∉ Path <$> loading s)
  ∧ (Finished p ∉ trackerLog s).
Proof.
  intros Hnd Hinv%pipelineInv_reachable Hp.
  pose proof (pipeline_history _ _ Hnd Hinv) as Hh.
  destruct Hinv as (_ & _ & Hwhere & _ & Hrun).
  assert (Hndw : NoDup (whereabouts s)) by (rewrite Hwhere; apply Hh).
  unfold whereabouts in Hwhere, Hndw.
  apply NoDup_app in Hndw as (_ & _ & Hndw).
  apply NoDup_app in Hndw as (_ & Hext & Hndw).
  apply NoDup_app in Hndw as (_ & Hload & Hndw).
  apply NoDup_app in Hndw as (_ & Hab & _).
  assert (Hnc : p ∉ completed (trackerLog s)) by by apply Hab.
  repeat split.
  - rewrite Hrun, run_history by done. apply list_elem_of_filter.
    split; [done|]. rewrite <- Hwhere, !elem_of_app. auto.
  - intros Hin. apply (Hext p Hin). rewrite !elem_of_app. auto.
  - intros Hin. apply (Hload p Hin). rewrite !elem_of_app. auto.
  - intros Hin. apply Hnc. unfold completed. apply list_elem_of_omap.
    by exists (Finished p).
Qed.

(** C6, as the code has it: with read-failure-skipping, a unit that cannot
    be opened, decoded or range-read is given up, and from then on it is
    never handed to the load pool, its completion is never reported, and it
    stays in the in-progress sequence; an archive of a full dump that cannot
    be dumped is passed over, it adds no point, and the batch handed on
    holds the data points of the archives that can be dumped, from the last
    to the first.  Without skipping, every such failure is followed by
    [exit <- 2]. *)
Theorem read_failure_policy (path : string) :
  (skipWhisperErrors fl = true →
   ∀ k, (∀ i, k ≠ DumpFails i) → fails fl open path k →
        whisperWorker fl open path = Abandoned)
  ∧ (skipWhisperErrors fl = true →
     ∀ i, fails fl open path (DumpFails i) →
          ∃ w, open path = Ok (Ok w)
               ∧ readable w i = []
               ∧ whisperWorker fl open path =
                 Forwarded {| Path := path;
                              Points := dumpsInOrder (readable w)
                                          (length (Archives w)) |})
  ∧ (skipWhisperErrors fl = false →
     ∀ k, fails fl open path k → whisperWorker fl open path = ExitRequested 2)
  ∧ (∀ keys s s',
       NoDup keys →
       reachable fl open (start (announce keys)) s →
       path ∈ abandoned s →
       reachable fl open s s' →
       path ∈ firstInProgress s' ∧ (path ∉ Path <$> loading s')
       ∧ (Finished path ∉ trackerLog s')).
Proof.
  split; [|split; [|split]].
  - intros Hskip k Hk Hf. by apply (whisperWorker_abandons _ _ _ k).
  - intros Hskip i Hf. by apply (whisperWorker_dump_passed_over _ _ _ i).
  - intros Hskip k Hf. by apply (whisperWorker_fatal _ _ _ k).
  - intros keys s s' Hnd Hs Hp Hs'.
    destruct (abandoned_in_progress keys s' path Hnd) as (? & _ & ? & ?).
    + unfold reachable in *. by etrans.
    + by apply (abandoned_reachable s s').
    + done.
Qed.

End PipelineProofs.

Section PipelineWitnesses.
Import OrderTracker Discovery Whisper Extract Pipeline Sample.

(** One step of the sample pipeline, then the rest. *)
Ltac sends_found := eapply rtc_l; [eapply step_found; reflexivity|]; simpl.
Ltac sends_work := eapply rtc_l; [eapply step_work; reflexivity|]; simpl.

Lemma recorded_before_extracted_witness :
  let s : @system Z :=
           {| discovery := []; firstInProgress := ["/w/a.wsp"];
              trackerLog := [Found "/w/a.wsp"]; extracting := ["/w/a.wsp"];
              loading := []; abandoned := [] |} in
  "/w/a.wsp"%string ∈ extracting s
  ∧ "/w/a.wsp"%string ∈ recorded (trackerLog s).
Proof.
  intros s.
  destruct (recorded_before_extracted (fullDump true) tree
              {| include := ""; exclude := "" |}
              {| skipUntil := ""; skipCounter := 0 |}
              [("/w"%string, None); ("/w/a.wsp"%string, None)] s)
    as (_ & Hextracting & _).
  - change (Walk _ _ _).1.2
      with [ToFoundFiles "/w/a.wsp"; ToWhisperFiles "/w/a.wsp"].
    unfold reachable. sends_found. sends_work. apply rtc_refl.
  - split; [by left|]. apply Hextracting. by left.
Defined.

(** The claim of C6 fails for a full dump: with skipping, a unit whose
    archive cannot be dumped is not given up, an empty batch is handed on. *)
Lemma dump_failure_is_forwarded :
  skipWhisperErrors (fullDump true) = true
  ∧ fails (fullDump true) tree "/w/b.wsp" (DumpFails 0)
  ∧ whisperWorker (fullDump true) tree "/w/b.wsp" =
      Forwarded {| Path := "/w/b.wsp"; Points := [] |}
  ∧ whisperWorker (fullDump true) tree "/w/b.wsp" ≠ Abandoned.
Proof.
  split; [reflexivity|]. split; [|split; [reflexivity|discriminate]].
  split; [reflexivity|]. exists unreadable, "read"%string.
  split; [reflexivity|]. split; [simpl; lia|reflexivity].
Qed.

Lemma read_failure_policy_witness :
  let s : @system Z :=
           {| discovery := []; firstInProgress := ["/w/a.wsp"; "/w/b.wsp"];
              trackerLog := [Found "/w/a.wsp"; Found "/w/b.wsp"];
              extracting := ["/w/a.wsp"]; loading := [];
              abandoned := ["/w/b.wsp"] |} in
  whisperWorker (rangeRead true) tree "/w/b.wsp" = Abandoned
  ∧ "/w/b.wsp"%string ∈ firstInProgress s
  ∧ ∃ w, tree "/w/b.wsp" = Ok (Ok w)
         ∧ Dumped.readable w 0 = []
         ∧ whisperWorker (fullDump true) tree "/w/b.wsp" =
           Forwarded {| Path := "/w/b.wsp";
                        Points := dumpsInOrder (Dumped.readable w)
                                    (length (Archives w)) |}.
Proof.
  intros s.
  destruct (read_failure_policy (rangeRead true) tree "/w/b.wsp")
    as (Hskip & _ & _ & Hstays).
  destruct (read_failure_policy (fullDump true) tree "/w/b.wsp")
    as (_ & Hdump & _ & _).
  split; [|split].
  - apply (Hskip eq_refl RangeReadFails); [done|].
    split; [reflexivity|]. by exists unreadable, "read"%string.
  - apply (Hstays ["/w/a.wsp"; "/w/b.wsp"]%string s s).
    + by_compute.
    + unfold reachable. sends_found. sends_work. sends_found. sends_work.
      eapply rtc_l; [|apply rtc_refl].
      by apply (step_abandon _ _ "/w/b.wsp" [] ["/w/a.wsp"%string]).
    + by left.
    + apply rtc_refl.
  - apply (Hdump eq_refl 0%nat).
    split; [reflexivity|]. exists unreadable, "read"%string.
    split; [reflexivity|]. split; [simpl; lia|reflexivity].
Defined.

End PipelineWitnesses.

(** ** Exit *)

Section ExitProofs.
Import OrderTracker Discovery Whisper Extract Load RunOn.
Context {float64 : Type}.
Implicit Types (fl : flags) (open : source float64) (lo : leftovers float64).

Lemma keepOrder_ops l ops ms : keepOrder l ((Op <$> ops) ++ ms) = keepOrder (run l ops) ms.
Proof. revert l. induction ops as [|o ops IH]; intros l; [done|]. apply IH. Qed.

(** Handled by itself, an exit request makes [keepOrder] name the head of
    its list, if there is one, and exit with the code requested. *)
Lemma keepOrder_exit l ops code rest :
  keepOrder l ((Op <$> ops) ++ Exit code :: rest) = Exited (head (run l ops)) code.
Proof. by rewrite keepOrder_ops. Qed.

Lemma whisperWorkerRun_undecodable fl open lo path e :
  skipWhisperErrors fl = false →
  open path = Ok (Err e) →
  whisperWorkerRun fl open lo path = [SendExit 2; NilDereference].
Proof. intros Hskip Hopen. unfold whisperWorkerRun, decodedRun. by rewrite Hopen, Hskip. Qed.

(** C8, at a file that opens and does not decode, without skipping:
    [whisperWorker] sends 2 on [exit] and, having no [return] there, goes on
    to use the nil [w].  [keepOrder] receives the request; from there it can
    still print the head of its list and exit with the code 2, but the panic
    of the worker can come first and end the program with nothing printed,
    whatever the list holds. *)
Theorem exit_request_races_with_panic fl open lo (path e : string) (l : inProgress) :
  skipWhisperErrors fl = false →
  open path = Ok (Err e) →
  rtc race (Live l (whisperWorkerRun fl open lo path)) (Exiting l 2 [NilDereference])
  ∧ race (Exiting (float64 := float64) l 2 [NilDereference])
         (ExitedWith (head l) 2)
  ∧ race (Exiting (float64 := float64) l 2 [NilDereference]) Crashed.
Proof.
  intros Hskip Hopen. rewrite (whisperWorkerRun_undecodable _ _ _ _ e) by done.
  split; [|split].
  - apply rtc_once. constructor.
  - by constructor.
  - constructor.
Qed.

End ExitProofs.

Lemma exit_request_races_with_panic_witness :
  rtc RunOn.race
    (RunOn.Live ["/w/a.wsp"]
       (RunOn.whisperWorkerRun (Sample.rangeRead false) RunOn.undecodable
          RunOn.nothingLeft "/w/k.wsp"))
    (RunOn.Exiting ["/w/a.wsp"] 2 [RunOn.NilDereference])
  ∧ RunOn.race (RunOn.Exiting (float64 := Z) ["/w/a.wsp"] 2 [RunOn.NilDereference])
      (RunOn.ExitedWith (Some "/w/a.wsp"%string) 2)
  ∧ RunOn.race (RunOn.Exiting (float64 := Z) ["/w/a.wsp"] 2 [RunOn.NilDereference])
      RunOn.Crashed.
Proof.
  exact (exit_request_races_with_panic (Sample.rangeRead false) RunOn.undecodable
           RunOn.nothingLeft "/w/k.wsp" "bad header" ["/w/a.wsp"%string]
           eq_refl eq_refl).
Defined.

(** * Further properties of the code *)

(** ** [keepOrder] on arbitrary message sequences *)

Section TrackerMore.
Import OrderTracker.

Lemma complete_sublist finished l : complete finished l `sublist_of` l.
Proof.
  induction l as [|path next IH]; simpl; [done|].
  destruct (decide (path = finished)); [by apply sublist_cons|by apply sublist_skip].
Qed.

(** X1: whatever messages arrive, in whatever order, the list holds only
    keys it started with or was sent on [foundFiles], in that order. *)
Theorem run_sublist_recorded (l : inProgress) (ops : list op) :
  run l ops `sublist_of` l ++ recorded ops.
Proof.
  revert l. induction ops as [|o ops IH]; intros l.
  - unfold run, recorded. simpl. by rewrite app_nil_r.
  - change (run l (o :: ops)) with (run (step l o) ops).
    etrans; [apply IH|]. destruct o as [p|p]; simpl.
    + rewrite record_snoc, <- app_assoc. done.
    + apply sublist_app; [apply complete_sublist|done].
Qed.

(** X2: a completion right after the record of the same key undoes the
    record when the key is new; when the key is already in the list it is the
    older occurrence that goes and the new one that stays. *)
Theorem complete_after_record (k : string) (l : inProgress) :
  (k ∉ l → complete k (record k l) = l)
  ∧ (k ∈ l → complete k (record k l) = complete k l ++ [k]).
Proof.
  rewrite record_snoc. split.
  - intros Hk. by rewrite complete_first, app_nil_r.
  - intros (l1 & l2 & -> & Hl1)%list_elem_of_split_l.
    rewrite <- app_assoc, <- app_comm_cons, !complete_first by done.
    by rewrite app_assoc.
Qed.

Lemma complete_after_record_witness :
  complete "a" (record "a" ["b"]) = ["b"]%string
  ∧ complete "a" (record "a" ["a"; "b"]) = ["b"; "a"]%string.
Proof.
  split.
  - apply (proj1 (complete_after_record "a" ["b"]%string)). by_compute.
  - apply (proj2 (complete_after_record "a" ["a"; "b"]%string)). by_compute.
Defined.

Lemma head_step l o p :
  head l = Some p → o ≠ Finished p → head (step l o) = Some p.
Proof.
  destruct l as [|q l]; [done|]. intros [= ->] Ho.
  destruct o as [k|k]; simpl.
  - by rewrite linkLast_snoc.
  - destruct (decide (p = k)) as [->|]; [done|done].
Qed.

Lemma head_run (l : inProgress) (ops : list op) (p : string) :
  head l = Some p →
  Finished p ∉ ops →
  head (run l ops) = Some p.
Proof.
  revert l. induction ops as [|o ops IH]; intros l Hhead Hops; [done|].
  apply not_elem_of_cons in Hops as [Ho Hops].
  change (run l (o :: ops)) with (run (step l o) ops).
  apply IH; [|done]. by apply head_step.
Qed.

(** X3: the key at the head of the list stays at the head until its own
    completion arrives. *)
Theorem head_until_completed (l : inProgress) (ops : list op) (p : string) :
  head l = Some p →
  Finished p ∉ ops →
  head (run l ops) = Some p.
Proof. apply head_run. Qed.

Lemma head_until_completed_witness :
  head (run ["a"; "b"] [Finished "b"; Found "c"; Finished "c"]) = Some "a"%string.
Proof.
  apply (head_until_completed ["a"; "b"]%string
           [Finished "b"; Found "c"; Finished "c"] "a"); [reflexivity|].
  repeat (apply not_elem_of_cons; split; [discriminate|]). apply not_elem_of_nil.
Defined.

End TrackerMore.

(** ** A whole walk *)

Section WalkMore.
Import GoStrings Discovery Filter.

Lemma cursor_eta (c : cursor) :
  {| skipUntil := skipUntil c; skipCounter := skipCounter c |} = c.
Proof. by destruct c. Qed.

Lemma process_uncursored f c path :
  skipUntil c = ""%string →
  process f c path None =
  (c, if eligible f path then [ToFoundFiles path; ToWhisperFiles path] else [], None).
Proof.
  intros Hc. unfold process, eligible.
  assert ((if decide (path = skipUntil c)
           then {| skipUntil := ""; skipCounter := skipCounter c |} else c) = c)
    as ->.
  { destruct (decide _); [|done]. by rewrite <- Hc, cursor_eta. }
  rewrite Hc. destruct (HasSuffix path ".wsp"); simpl; [|done].
  destruct (bool_decide (exclude f ≠ "") && Contains path (exclude f)); simpl; [done|].
  by destruct (Contains path (include f)).
Qed.

Lemma process_error_uncursored f c path e :
  skipUntil c = ""%string → process f c path (Some e) = (c, [], Some e).
Proof.
  intros Hc. unfold process.
  destruct (decide _); [|done]. by rewrite <- Hc, cursor_eta.
Qed.

Lemma Walk_uncursored (f : filters) (c : cursor)
    (entries : list (string * option string)) :
  skipUntil c = ""%string →
  Walk f c entries =
  (c, announce (eligiblePaths f (upToError entries)), firstError entries).
Proof.
  intros Hc. induction entries as [|[path [e|]] entries IH].
  - done.
  - by rewrite Walk_cons, process_error_uncursored.
  - rewrite Walk_cons, process_uncursored, IH by done.
    unfold eligiblePaths. simpl.
    destruct (eligible f path) eqn:He.
    + by rewrite filter_cons_True by done.
    + by rewrite filter_cons_False by (by rewrite He).
Qed.

(** X4: a walk that starts without a cursor sends, for each path that comes
    before the first walk error and passes the filters, the path to
    [keepOrder] and then to the extract pool, in walk order, and nothing
    else; it returns the first walk error and leaves the cursor and the skip
    counter as they were. *)
Theorem Walk_without_cursor (f : filters) (c : cursor)
    (entries : list (string * option string)) :
  skipUntil c = ""%string →
  Walk f c entries =
  (c, announce (eligiblePaths f (upToError entries)), firstError entries).
Proof. apply Walk_uncursored. Qed.

Lemma Walk_without_cursor_witness :
  Walk {| include := "cpu"; exclude := "" |} {| skipUntil := ""; skipCounter := 3 |}
       [("/w/cpu"%string, None); ("/w/cpu/a.wsp"%string, None);
        ("/w/mem/b.wsp"%string, None); ("/w/x"%string, Some "denied"%string);
        ("/w/cpu/z.wsp"%string, None)] =
  ({| skipUntil := ""; skipCounter := 3 |},
   [ToFoundFiles "/w/cpu/a.wsp"; ToWhisperFiles "/w/cpu/a.wsp"],
   Some "denied"%string).
Proof.
  exact (Walk_without_cursor {| include := "cpu"; exclude := "" |}
           {| skipUntil := ""; skipCounter := 3 |}
           [("/w/cpu"%string, None); ("/w/cpu/a.wsp"%string, None);
            ("/w/mem/b.wsp"%string, None); ("/w/x"%string, Some "denied"%string);
            ("/w/cpu/z.wsp"%string, None)] eq_refl).
Defined.

Lemma process_skipping f c path :
  skipUntil c ≠ ""%string → path ≠ skipUntil c →
  process f c path None =
  (if eligible f path
   then {| skipUntil := skipUntil c;
           skipCounter := (skipCounter c + 1) mod 2 ^ 64 |}
   else c, [], None).
Proof.
  intros Hc Hpath. unfold process, eligible.
  destruct (decide (path = skipUntil c)); [done|].
  destruct (HasSuffix path ".wsp"); simpl; [|done].
  destruct (bool_decide (exclude f ≠ "") && Contains path (exclude f)); simpl; [done|].
  destruct (Contains path (include f)); simpl; [|done].
  by rewrite bool_decide_eq_true_2.
Qed.

Lemma process_at_cursor f c path err :
  path = skipUntil c → skipUntil c ≠ ""%string →
  process f c path err =
  process f {| skipUntil := ""; skipCounter := skipCounter c |} path err.
Proof.
  intros Hpath Hc. unfold process. simpl.
  destruct (decide (path = skipUntil c)); [|done].
  destruct (decide (path = ""%string)) as [Hempty|]; [|done].
  by rewrite Hempty in Hpath.
Qed.

Lemma Walk_skipping (f : filters) (c : cursor)
    (before rest : list (string * option string)) :
  skipUntil c ≠ ""%string →
  skipUntil c ∉ before.*1 →
  Forall (λ entry, entry.2 = None) before →
  0 ≤ skipCounter c < 2 ^ 64 →
  Walk f c (before ++ rest) =
  Walk f {| skipUntil := skipUntil c;
            skipCounter := (skipCounter c
                            + Z.of_nat (length (eligiblePaths f before.*1)))
                           mod 2 ^ 64 |}
       rest.
Proof.
  revert c. induction before as [|[path err] before IH]; intros c Hc Hnotin Herr Hn.
  - simpl. rewrite Z.add_0_r, Z.mod_small by done. by rewrite cursor_eta.
  - apply Forall_cons in Herr as [He Herr]. simpl in He. subst err.
    rewrite fmap_cons in Hnotin. apply not_elem_of_cons in Hnotin as [Hne Hnotin].
    rewrite <- app_comm_cons, Walk_cons, process_skipping by done.
    unfold eligiblePaths. rewrite fmap_cons. simpl.
    destruct (eligible f path) eqn:He.
    + rewrite filter_cons_True by done.
      rewrite IH; simpl; [|done..|by apply Z.mod_pos_bound].
      rewrite Zplus_mod_idemp_l.
      rewrite Nat2Z.inj_succ. fold (eligiblePaths f before.*1).
      replace (skipCounter c + Z.succ (Z.of_nat (length (eligiblePaths f before.*1))))
        with (skipCounter c + 1 + Z.of_nat (length (eligiblePaths f before.*1)))
        by lia.
      by destruct (Walk f _ rest) as [[c2 out2] r].
    + rewrite filter_cons_False by (by rewrite He).
      rewrite IH by done. by destruct (Walk f _ rest) as [[c2 out2] r].
Qed.

(** X5: while the cursor waits for a path that has not come up, the walk
    sends nothing; each path that passes the filters adds one to the skip
    counter, modulo 2^64. *)
Theorem Walk_skips_until_cursor (f : filters) (c : cursor)
    (before rest : list (string * option string)) :
  skipUntil c ≠ ""%string →
  skipUntil c ∉ before.*1 →
  Forall (λ entry, entry.2 = None) before →
  0 ≤ skipCounter c < 2 ^ 64 →
  Walk f c (before ++ rest) =
  Walk f {| skipUntil := skipUntil c;
            skipCounter := (skipCounter c
                            + Z.of_nat (length (eligiblePaths f before.*1)))
                           mod 2 ^ 64 |}
       rest.
Proof. apply Walk_skipping. Qed.

Lemma Walk_skips_until_cursor_witness :
  Walk {| include := ""; exclude := "" |} {| skipUntil := "/w/c.wsp"; skipCounter := 0 |}
       ([("/w"%string, None); ("/w/a.wsp"%string, None); ("/w/b.wsp"%string, None)]
        ++ []) =
  ({| skipUntil := "/w/c.wsp"; skipCounter := 2 |}, [], None).
Proof.
  rewrite (Walk_skips_until_cursor {| include := ""; exclude := "" |}
             {| skipUntil := "/w/c.wsp"; skipCounter := 0 |}
             [("/w"%string, None); ("/w/a.wsp"%string, None);
              ("/w/b.wsp"%string, None)] []).
  - reflexivity.
  - discriminate.
  - by_compute.
  - by_compute.
  - simpl. lia.
Defined.

Lemma Walk_resuming (f : filters) (K : string) (n : Z)
    (before after : list (string * option string)) (err : option string) :
  K ≠ ""%string →
  K ∉ before.*1 →
  Forall (λ entry, entry.2 = None) before →
  0 ≤ n < 2 ^ 64 →
  Walk f {| skipUntil := K; skipCounter := n |} (before ++ (K, err) :: after) =
  ({| skipUntil := "";
      skipCounter := (n + Z.of_nat (length (eligiblePaths f before.*1))) mod 2 ^ 64 |},
   announce (eligiblePaths f (upToError ((K, err) :: after))),
   firstError ((K, err) :: after)).
Proof.
  intros HK Hnotin Herr Hn.
  rewrite Walk_skipping by done. simpl skipUntil. simpl skipCounter.
  rewrite Walk_cons, process_at_cursor by done. simpl skipCounter.
  rewrite <- Walk_cons. by apply Walk_uncursored.
Qed.

(** X6: a walk that starts with the cursor at a path of the tree sends
    nothing for the paths before it and then goes on as a walk without a
    cursor does: from the cursor's path on, each path that passes the filters
    is sent, up to the first walk error.  The cursor is cleared at its path
    whether or not that entry passes the filters or carries an error. *)
Theorem Walk_resumes_at_cursor (f : filters) (K : string) (n : Z)
    (before after : list (string * option string)) (err : option string) :
  K ≠ ""%string →
  K ∉ before.*1 →
  Forall (λ entry, entry.2 = None) before →
  0 ≤ n < 2 ^ 64 →
  Walk f {| skipUntil := K; skipCounter := n |} (before ++ (K, err) :: after) =
  ({| skipUntil := "";
      skipCounter := (n + Z.of_nat (length (eligiblePaths f before.*1))) mod 2 ^ 64 |},
   announce (eligiblePaths f (upToError ((K, err) :: after))),
   firstError ((K, err) :: after)).
Proof. apply Walk_resuming. Qed.

Lemma Walk_resumes_at_cursor_witness :
  Walk {| include := ""; exclude := "" |} {| skipUntil := "/w/b.wsp"; skipCounter := 0 |}
       ([("/w"%string, None); ("/w/a.wsp"%string, None)]
        ++ ("/w/b.wsp"%string, None) :: [("/w/c.wsp"%string, None)]) =
  ({| skipUntil := ""; skipCounter := 1 |},
   [ToFoundFiles "/w/b.wsp"; ToWhisperFiles "/w/b.wsp";
    ToFoundFiles "/w/c.wsp"; ToWhisperFiles "/w/c.wsp"], None).
Proof.
  rewrite (Walk_resumes_at_cursor {| include := ""; exclude := "" |} "/w/b.wsp" 0
             [("/w"%string, None); ("/w/a.wsp"%string, None)]
             [("/w/c.wsp"%string, None)] None).
  - reflexivity.
  - discriminate.
  - by_compute.
  - by_compute.
  - lia.
Defined.

End WalkMore.

(** ** The extract pool, further *)

Section ExtractMore.
Import Whisper Extract Dumped.
Context {float64 : Type}.
Implicit Types (w : Whisper float64) (points : list (Point float64)).
Implicit Types (fl : flags) (open : source float64).

(** X7: in full-dump mode with read-failure-skipping, a file that opens is
    always handed on: its batch holds the data points of the archives that
    could be dumped, from the last archive to the first, and nothing of the
    archives that could not. *)
Theorem full_dump_skips_unreadable_archives fl open (path : string) w :
  all fl = true →
  skipWhisperErrors fl = true →
  open path = Ok (Ok w) →
  whisperWorker fl open path =
  Forwarded {| Path := path;
               Points := dumpsInOrder (readable w) (length (Archives w)) |}.
Proof.
  intros Hall Hskip Hopen. unfold whisperWorker.
  by rewrite Hopen, Hall, Hskip, dumpArchives_readable.
Qed.

Lemma dumpArchives_None skip w n points :
  dumpArchives skip w n points = None →
  skip = false ∧ ∃ i e, (i < n)%nat ∧ DumpArchive w i = Err e.
Proof.
  revert points. induction n as [|n IH]; intros points; simpl; [done|].
  destruct (DumpArchive w n) as [allPoints|e] eqn:Hn.
  - intros (? & i & e & ? & ?)%IH. split; [done|]. exists i, e. split; [lia|done].
  - destruct skip.
    + intros (? & i & e' & ? & ?)%IH. done.
    + intros _. split; [done|]. exists n, e. split; [lia|done].
Qed.

(** X8: the extract pool gives a unit up only with skipping and only when
    the file could not be opened, decoded or range-read; it requests exit
    only without skipping, only with the code 2, and only when some read of
    the unit failed. *)
Theorem whisperWorker_fails_only_on_failure fl open (path : string) :
  (whisperWorker fl open path = Abandoned →
   skipWhisperErrors fl = true
   ∧ ∃ k, (∀ i, k ≠ DumpFails i) ∧ fails fl open path k)
  ∧ (∀ code, whisperWorker fl open path = ExitRequested code →
     skipWhisperErrors fl = false ∧ code = 2 ∧ ∃ k, fails fl open path k).
Proof.
  unfold whisperWorker. split.
  - destruct (open path) as [[w|e]|e] eqn:Hopen.
    + destruct (all fl) eqn:Hall.
      * by destruct (dumpArchives _ _ _ _).
      * destruct (FetchUntil _ _ _) as [points|e] eqn:Hf; [done|].
        destruct (skipWhisperErrors fl); [|done]. intros _. split; [done|].
        exists RangeReadFails. split; [done|]. split; [done|]. by exists w, e.
    + destruct (skipWhisperErrors fl); [|done]. intros _. split; [done|].
      exists DecodeFails. split; [done|]. by exists e.
    + destruct (skipWhisperErrors fl); [|done]. intros _. split; [done|].
      exists OpenFails. split; [done|]. by exists e.
  - intros code. destruct (open path) as [[w|e]|e] eqn:Hopen.
    + destruct (all fl) eqn:Hall.
      * destruct (dumpArchives _ _ _ _) eqn:Hd; [done|]. intros [= <-].
        apply dumpArchives_None in Hd as (Hskip & i & e & Hi & He).
        repeat split; [done|]. exists (DumpFails i). split; [done|]. by exists w, e.
      * destruct (FetchUntil _ _ _) as [points|e] eqn:Hf; [done|].
        destruct (skipWhisperErrors fl); [done|]. intros [= <-].
        repeat split. exists RangeReadFails. split; [done|]. by exists w, e.
    + destruct (skipWhisperErrors fl); [done|]. intros [= <-].
      repeat split. exists DecodeFails. by exists e.
    + destruct (skipWhisperErrors fl); [done|]. intros [= <-].
      repeat split. exists OpenFails. by exists e.
Qed.

(** X10: in full-dump mode the configured time range plays no part. *)
Theorem full_dump_ignores_range fl open (path : string) (from until : Z) :
  all fl = true →
  whisperWorker (withRange fl from until) open path = whisperWorker fl open path.
Proof. intros Hall. unfold whisperWorker, withRange. simpl. by rewrite Hall. Qed.

End ExtractMore.

Section ExtractMoreWitnesses.
Import Whisper Extract Dumped Sample.

Lemma full_dump_skips_unreadable_archives_witness :
  whisperWorker (fullDump true) tree "/w/b.wsp" =
  Forwarded {| Path := "/w/b.wsp"; Points := [] |}.
Proof.
  exact (full_dump_skips_unreadable_archives (fullDump true) tree "/w/b.wsp"
           unreadable eq_refl eq_refl eq_refl).
Defined.

Lemma whisperWorker_fails_only_on_failure_witness :
  skipWhisperErrors (rangeRead true) = true
  ∧ ∃ k, (∀ i, k ≠ DumpFails i) ∧ fails (rangeRead true) tree "/w/b.wsp" k.
Proof.
  exact (proj1 (whisperWorker_fails_only_on_failure (rangeRead true) tree "/w/b.wsp")
           eq_refl).
Defined.

Lemma full_dump_ignores_range_witness :
  whisperWorker (withRange (fullDump true) 5 6) tree "/w/a.wsp" =
  whisperWorker (fullDump true) tree "/w/a.wsp".
Proof.
  exact (full_dump_ignores_range (fullDump true) tree "/w/a.wsp" 5 6 eq_refl).
Defined.

End ExtractMoreWitnesses.

(** ** A whole iteration of [whisperWorker] *)

Section RunOnProofs.
Import Whisper Extract RunOn.
Context {float64 : Type}.
Implicit Types (fl : flags) (open : source float64) (lo : leftovers float64).
Implicit Types (w : Whisper float64) (points : list (Point float64)).

Lemma dumpRun_acts skip lo w n points a :
  a ∈ (dumpRun skip lo w n points).1 → skip = false ∧ a = SendExit 2.
Proof.
  revert points. induction n as [|n IH]; intros points; simpl.
  - by intros ?%elem_of_nil.
  - destruct (DumpArchive w n) as [allPoints|e]; [apply IH|].
    destruct skip; [apply IH|].
    destruct (dumpRun false lo w n _) as [acts result] eqn:Hd. simpl.
    rewrite elem_of_cons. intros [->|Hin]; [done|].
    apply (IH (points ++ filter hasData (dumpedWithError lo n))). by rewrite Hd.
Qed.

(** Up to the first send on [exit] the whole iteration is the iteration of
    [whisperWorker]: nothing is sent where that one gives the unit up, the
    serie alone where it hands one on, and where it asks for exit the first
    thing sent is that request. *)
Lemma dumpRun_dumpArchives skip lo w n points :
  match dumpArchives skip w n points with
  | Some result => dumpRun skip lo w n points = ([], result)
  | None => ∃ acts result, dumpRun skip lo w n points = (SendExit 2 :: acts, result)
  end.
Proof.
  revert points. induction n as [|n IH]; intros points; simpl; [done|].
  destruct (DumpArchive w n) as [allPoints|e]; [apply IH|].
  destruct skip; [apply IH|].
  destruct (dumpRun false lo w n _) as [acts result]. by exists acts, result.
Qed.

Lemma whisperWorkerRun_whisperWorker fl open lo path :
  match whisperWorker fl open path with
  | Abandoned => whisperWorkerRun fl open lo path = []
  | Forwarded serie => whisperWorkerRun fl open lo path = [SendSerie serie]
  | ExitRequested code =>
      ∃ rest, whisperWorkerRun fl open lo path = SendExit code :: rest
  end.
Proof.
  unfold whisperWorker, whisperWorkerRun, decodedRun.
  destruct (open path) as [[w|e]|e].
  - destruct (all fl).
    + pose proof (dumpRun_dumpArchives (skipWhisperErrors fl) lo w
                    (length (Archives w)) []) as Hd.
      destruct (dumpArchives _ _ _ _) as [result|].
      * by rewrite Hd.
      * destruct Hd as (acts & result & ->). by eexists.
    + destruct (FetchUntil _ _ _); [done|].
      destruct (skipWhisperErrors fl); [done|]. by eexists.
  - destruct (skipWhisperErrors fl); [done|]. by eexists.
  - destruct (skipWhisperErrors fl); [done|]. by eexists.
Qed.

(** X9: every serie a whisper worker sends on [influxSeries] carries the
    path of the iteration that sends it, also one sent after a request for
    exit.  When read failures are skipped, or no request for exit is sent in
    the iteration, the file opened and decoded, and in range mode the points
    of the serie are exactly what [FetchUntil] returned for the configured
    range. *)
Theorem forwarded_serie_origin fl open lo (path : string)
    (serie : abstractSerie float64) :
  SendSerie serie ∈ whisperWorkerRun fl open lo path →
  Path serie = path
  ∧ (skipWhisperErrors fl = true
     ∨ (∀ code, SendExit code ∉ whisperWorkerRun fl open lo path) →
     ∃ w, open path = Ok (Ok w)
          ∧ (all fl = false →
             FetchUntil w (fromTime fl) (untilTime fl) = Ok (Points serie))).
Proof.
  assert (Hdecoded : ∀ decoded,
    SendSerie serie ∈ decodedRun fl lo path decoded →
    Path serie = path
    ∧ (skipWhisperErrors fl = true
       ∨ (∀ code, SendExit code ∉ decodedRun fl lo path decoded) →
       ∃ w, decoded = Ok w
            ∧ (all fl = false →
               FetchUntil w (fromTime fl) (untilTime fl) = Ok (Points serie)))).
  { intros [w|e]; unfold decodedRun.
    - destruct (all fl) eqn:Hall.
      + destruct (dumpRun _ _ _ _ _) as [acts points] eqn:Hd.
        rewrite elem_of_app, list_elem_of_singleton. intros [Hin|[= ->]].
        * replace acts with (dumpRun (skipWhisperErrors fl) lo w
                               (length (Archives w)) []).1 in Hin by by rewrite Hd.
          by apply dumpRun_acts in Hin as [_ ?].
        * split; [done|]. intros _. by exists w.
      + destruct (FetchUntil _ _ _) as [points|e] eqn:Hf.
        * rewrite list_elem_of_singleton. intros [= ->].
          split; [done|]. intros _. by exists w.
        * destruct (skipWhisperErrors fl); [by intros ?%elem_of_nil|].
          rewrite !elem_of_cons, elem_of_nil. intros [|[[= ->]|]]; [done| |done].
          split; [done|]. intros [|Hno]; [done|].
          destruct (Hno 2). by left.
    - destruct (skipWhisperErrors fl); [by intros ?%elem_of_nil|].
      rewrite !elem_of_cons, elem_of_nil. naive_solver. }
  unfold whisperWorkerRun. destruct (open path) as [decoded|e].
  - intros Hin. destruct (Hdecoded decoded Hin) as [Hpath Hw].
    split; [done|]. intros Hcond. destruct (Hw Hcond) as (w & -> & Hf).
    by exists w.
  - destruct (skipWhisperErrors fl); [by intros ?%elem_of_nil|].
    rewrite elem_of_cons. intros [|Hin]; [done|].
    destruct (Hdecoded _ Hin) as [Hpath _]. split; [done|].
    intros [|Hno]; [done|]. destruct (Hno 2). by left.
Qed.

End RunOnProofs.

Lemma forwarded_serie_origin_witness :
  Extract.Path {| Extract.Path := "/w/a.wsp";
                  Extract.Points := [Sample.point 3600 1] |} = "/w/a.wsp"%string
  ∧ ∃ w, Sample.tree "/w/a.wsp" = Whisper.Ok (Whisper.Ok w)
         ∧ (Extract.all (Sample.rangeRead false) = false →
            Whisper.FetchUntil w 0 7200 = Whisper.Ok [Sample.point 3600 1]).
Proof.
  destruct (forwarded_serie_origin (Sample.rangeRead false) Sample.tree
              RunOn.nothingLeft "/w/a.wsp"
              {| Extract.Path := "/w/a.wsp";
                 Extract.Points := [Sample.point 3600 1] |}) as [Hpath Hw].
  - by left.
  - split; [exact Hpath|]. apply Hw. right. intros code Hin.
    apply list_elem_of_singleton in Hin. discriminate Hin.
Defined.

(** ** The batch [influxWorker] writes *)

Section InfluxStrings.
Import GoStrings Influx.
Import (notations) Stdlib.Strings.Ascii.

Lemma sliceTo_append p q : sliceTo (String.length p) (p +:+ q) = p.
Proof.
  induction p as [|a p IH]; [by destruct q|].
  rewrite append_cons. simpl. by rewrite IH.
Qed.

Lemma append_inv_tail p q s : p +:+ s = q +:+ s → p = q.
Proof.
  intros Heq.
  assert (String.length p = String.length q) as Hlen.
  { apply (f_equal String.length) in Heq. rewrite !length_append in Heq. lia. }
  rewrite <- (sliceTo_append p s), <- (sliceTo_append q s). by rewrite Heq, Hlen.
Qed.

Lemma TrimSuffix_append s suffix : TrimSuffix (s +:+ suffix) suffix = s.
Proof.
  unfold TrimSuffix.
  rewrite (proj2 (HasSuffix_spec (s +:+ suffix) suffix)) by by exists s.
  rewrite length_append.
  replace (String.length s + String.length suffix - String.length suffix)%nat
    with (String.length s) by lia.
  apply sliceTo_append.
Qed.

Lemma ReplaceByte_append old new p q :
  ReplaceByte old new (p +:+ q) = ReplaceByte old new p +:+ ReplaceByte old new q.
Proof.
  induction p as [|a p IH]; [done|].
  rewrite append_cons. simpl. by rewrite IH, append_cons.
Qed.

Lemma ReplaceByte_absent old new s p q :
  old ≠ new → ReplaceByte old new s ≠ p +:+ String old q.
Proof.
  intros Hne. revert p. induction s as [|a s IH]; intros p; simpl.
  - by destruct p.
  - destruct p as [|b p].
    + simpl. intros [= Ha _]. by destruct (decide (a = old)).
    + rewrite append_cons. intros [= _ Hs]. by apply (IH p).
Qed.

Lemma sliceFromChecked_append p q :
  sliceFromChecked (String.length p) (p +:+ q) = Some q.
Proof.
  unfold sliceFromChecked. rewrite length_append.
  destruct (decide _); [|lia]. by rewrite sliceFrom_append.
Qed.

Lemma seriesName_append (whisperDir rel : string) :
  seriesName whisperDir (whisperDir +:+ "/" +:+ rel +:+ ".wsp") =
  Some (ReplaceByte "/" "." rel).
Proof.
  unfold seriesName.
  replace (String.length whisperDir + 1)%nat
    with (String.length (whisperDir +:+ "/"))
    by (rewrite length_append; simpl; lia).
  rewrite <- (append_assoc whisperDir "/").
  by rewrite sliceFromChecked_append, TrimSuffix_append.
Qed.

(** X11: for a file [whisperDir/rel.wsp] the series is named [rel] with
    every [/] turned into a dot; the directory, the separator after it and
    one [.wsp] at the end are cut off. *)
Theorem seriesName_below_whisperDir (whisperDir rel : string) :
  seriesName whisperDir (whisperDir +:+ "/" +:+ rel +:+ ".wsp") =
  Some (ReplaceByte "/" "." rel).
Proof. apply seriesName_append. Qed.

(** X12: the slice expression that cuts the directory off panics exactly
    when the path is not longer than [whisperDir], as for the path of
    [whisperDir] itself. *)
Theorem seriesName_panics_iff (whisperDir path : string) :
  seriesName whisperDir path = None ↔
  (String.length path ≤ String.length whisperDir)%nat.
Proof.
  unfold seriesName, sliceFromChecked.
  destruct (decide _); split; (done || lia).
Qed.

(** X13: a series name never contains a [/]. *)
Theorem seriesName_has_no_slash (whisperDir path name : string) :
  seriesName whisperDir path = Some name → ¬ occursIn "/" name.
Proof.
  unfold seriesName. destruct (sliceFromChecked _ _) as [rest|]; [|done].
  intros [= <-] (p & q & Hpq). revert Hpq. by apply ReplaceByte_absent.
Qed.

Lemma seriesName_has_no_slash_witness :
  ¬ occursIn "/" "cpu.load.a".
Proof.
  apply (seriesName_has_no_slash "/w" "/w/cpu/load/a.wsp" "cpu.load.a").
  reflexivity.
Defined.

(** X14: two different files can get the same series name: a [/] and a dot
    in the path below [whisperDir] both come out as a dot. *)
Theorem seriesName_collides (whisperDir x y : string) :
  whisperDir +:+ "/" +:+ (x +:+ "/" +:+ y) +:+ ".wsp"
    ≠ whisperDir +:+ "/" +:+ (x +:+ "." +:+ y) +:+ ".wsp"
  ∧ seriesName whisperDir (whisperDir +:+ "/" +:+ (x +:+ "/" +:+ y) +:+ ".wsp") =
    seriesName whisperDir (whisperDir +:+ "/" +:+ (x +:+ "." +:+ y) +:+ ".wsp").
Proof.
  split.
  - induction whisperDir as [|a d IH].
    + simpl. intros [= Heq]. revert Heq. induction x as [|b x IHx]; [done|].
      rewrite !append_cons. by intros [= ?].
    + rewrite !append_cons. by intros [= ?].
  - rewrite !seriesName_append, !ReplaceByte_append. done.
Qed.

(** X15: [main] cuts exactly one [/] off the end of the [whisperDir] flag:
    the flag with a [/] appended gives the flag back, a flag without one is
    kept, and the result still ends with a [/] exactly when the flag ends
    with two. *)
Theorem trimDir_cuts_one_slash (dir : string) :
  trimDir (dir +:+ "/") = dir
  ∧ (¬ endsWith dir "/" → trimDir dir = dir)
  ∧ (endsWith (trimDir dir) "/" ↔ endsWith dir "//").
Proof.
  assert (Hcut : ∀ d, trimDir (d +:+ "/") = d).
  { intros d. unfold trimDir.
    rewrite (proj2 (HasSuffix_spec (d +:+ "/") "/")) by by exists d.
    rewrite length_append. simpl.
    replace (String.length d + 1 - 1)%nat with (String.length d) by lia.
    apply sliceTo_append. }
  assert (Hkeep : ∀ d, ¬ endsWith d "/" → trimDir d = d).
  { intros d Hd. unfold trimDir.
    destruct (HasSuffix d "/") eqn:Hs; [|done].
    by apply HasSuffix_spec in Hs. }
  split; [apply Hcut|]. split; [apply Hkeep|].
  destruct (HasSuffix dir "/") eqn:Hs.
  - apply HasSuffix_spec in Hs as [d ->]. rewrite Hcut. split.
    + intros [p ->]. exists p. by rewrite append_assoc.
    + intros [p Hp]. exists p. apply (append_inv_tail _ _ "/").
      by rewrite Hp, append_assoc.
  - assert (¬ endsWith dir "/") as Hn.
    { intros He. apply HasSuffix_spec in He. congruence. }
    rewrite Hkeep by done. split; [done|].
    intros [p ->]. destruct Hn. exists (p +:+ "/"). by rewrite append_assoc.
Qed.

Lemma trimDir_cuts_one_slash_witness :
  trimDir "/w" = "/w"%string.
Proof.
  apply (proj1 (proj2 (trimDir_cuts_one_slash "/w"))).
  intros He. apply HasSuffix_spec in He. discriminate He.
Defined.

End InfluxStrings.

Section LoadMore.
Import Whisper Extract Load Influx.
Context {float64 B : Type}.

Lemma whisperWorker_full_dump_hasData (fl : Extract.flags) (open : source float64)
    (path : string) (serie : abstractSerie float64) :
  all fl = true →
  whisperWorker fl open path = Forwarded serie →
  Forall hasData (Points serie).
Proof.
  unfold whisperWorker. intros ->.
  destruct (open path) as [[w|e]|e]; [|by destruct (skipWhisperErrors fl)..].
  destruct (dumpArchives _ _ _ _) as [points|] eqn:Hd; [|done].
  intros [= <-]. simpl. by apply (dumpArchives_hasData _ _ _ _ _ Hd).
Qed.

(** X16: from the file to the write, in full-dump mode: the batch written
    for a unit has one point for each data point dumped, in the same order
    and with the same time and value; each point carries the series name of
    the unit's path and a time other than 0; the batch goes to the
    configured database with the retention policy [default] and the
    precision of seconds. *)
Theorem written_batch_of_full_dump (fl : Extract.flags) (open : source float64)
    (lf : Influx.flags) (path : string) (serie : abstractSerie float64)
    (b : BatchPoints float64) :
  all fl = true →
  whisperWorker fl open path = Forwarded serie →
  influxBatchPoints lf serie = Some b →
  (λ q, (Time q, Fields q)) <$> BatchOf b =
    (λ p, (Timestamp p, [("value"%string, Value p)])) <$> Points serie
  ∧ Forall (λ q, Some (Measurement q) = seriesName (whisperDir lf) path
                 ∧ Time q ≠ 0) (BatchOf b)
  ∧ Database b = influxDb lf
  ∧ RetentionPolicy b = "default"%string
  ∧ Precision b = "s"%string.
Proof.
  intros Hall Hw Hb.
  pose proof (whisperWorker_full_dump_hasData _ _ _ _ Hall Hw) as Hdata.
  assert (Path serie = path) as Hpath.
  { revert Hw. unfold whisperWorker.
    destruct (open path) as [[w|e]|e]; [|by destruct (skipWhisperErrors fl)..].
    rewrite Hall. destruct (dumpArchives _ _ _ _); [|done]. by intros [= <-]. }
  unfold influxBatchPoints in Hb. rewrite Hpath in Hb.
  destruct (seriesName (whisperDir lf) path) as [name|]; [|done].
  injection Hb as <-. simpl. repeat split.
  - by rewrite <- list_fmap_compose.
  - apply Forall_fmap. eapply Forall_impl; [exact Hdata|]. by intros p Hp.
Qed.

Lemma writeLoop_actions skip (b : B) path results a :
  a ∈ (writeLoop skip b path results).1 →
  a = Write b ∨ a = Sleep 5 ∨ a = FinishedFile path
  ∨ (skip = false ∧ a = ExitRequest 2).
Proof.
  induction results as [|[|] results IH]; simpl.
  - by intros ?%elem_of_nil.
  - rewrite !elem_of_cons, elem_of_nil. naive_solver.
  - destruct skip; simpl.
    + destruct (writeLoop true b path results) as [acts st]. simpl in *.
      rewrite !elem_of_cons. naive_solver.
    + rewrite !elem_of_cons, elem_of_nil. naive_solver.
Qed.

(** X17: for one batch the write loop only ever writes that batch and
    sleeps five seconds; a completion report or, without skipping, an exit
    request with the code 2 can only be the last thing it does; with
    skipping it never requests exit. *)
Theorem writeLoop_ends_with_report_or_exit (skip : bool) (b : B)
    (path : string) (results : list bool) :
  (∀ a, a ∈ (writeLoop skip b path results).1 →
        a = Write b ∨ a = Sleep 5 ∨ a = FinishedFile path
        ∨ (skip = false ∧ a = ExitRequest 2))
  ∧ (∀ pre a post,
       (writeLoop skip b path results).1 = pre ++ a :: post →
       post ≠ [] → a = Write b ∨ a = Sleep 5).
Proof.
  split; [intros a; apply writeLoop_actions|].
  induction results as [|[|] results IH]; simpl; intros pre a post Hacts Hpost.
  - by destruct pre.
  - destruct pre as [|x [|y pre]]; simplify_eq/=; auto. by destruct pre.
  - destruct skip; simpl in *.
    + destruct (writeLoop true b path results) as [acts st]. simpl in *.
      destruct pre as [|x [|y pre]]; simplify_eq/=; auto.
      by apply (IH pre a post).
    + destruct pre as [|x [|y pre]]; simplify_eq/=; auto. by destruct pre.
Qed.

End LoadMore.

Section LoadMoreWitnesses.
Import Whisper Extract Load Influx Sample.

Lemma written_batch_of_full_dump_witness :
  let lf := {| whisperDir := "/w"; influxDb := "graphite"; influxPrefix := "";
               skipInfluxErrors := false |} in
  let b := {| RetentionPolicy := "default";
              BatchOf := [ {| Measurement := "a"; Fields := [("value"%string, 2)];
                              Time := 3600 |};
                           {| Measurement := "a"; Fields := [("value"%string, 1)];
                              Time := 3600 |} ];
              Database := "graphite"; Precision := "s" |} in
  Forall (λ q, Some (Measurement q) = seriesName (whisperDir lf) "/w/a.wsp"
               ∧ Time q ≠ 0) (BatchOf b).
Proof.
  intros lf b.
  apply (written_batch_of_full_dump (fullDump true) tree lf "/w/a.wsp"
           {| Path := "/w/a.wsp"; Points := [point 3600 2; point 3600 1] |} b);
    reflexivity.
Defined.

Lemma writeLoop_ends_with_report_or_exit_witness :
  Write "batch" = Write "batch" ∨ Write "batch" = Sleep (BatchPoints := string) 5.
Proof.
  apply (proj2 (writeLoop_ends_with_report_or_exit true "batch" "/w/a.wsp"
                  [false; true]) [] _ _ eq_refl).
  discriminate.
Defined.

End LoadMoreWitnesses.

(** ** The pipeline, further *)

Section PipelineMore.
Import OrderTracker Discovery Filter Whisper Extract Pipeline.
Context {float64 : Type}.
Variable fl : Extract.flags.
Variable open : source float64.
Implicit Types (s : system (float64 := float64)) (keys : list string).

Lemma loading_start sends serie :
  serie ∉ loading (start (float64 := float64) sends).
Proof. apply not_elem_of_nil. Qed.

(** X18: when read failures are skipped, so that no whisper worker runs on
    past a request for exit, every batch an influx worker holds is the batch
    a whisper worker computes for the path the batch carries. *)
Theorem loading_is_extracted (sends : list send) s (serie : abstractSerie float64) :
  skipWhisperErrors fl = true →
  reachable fl open (start sends) s →
  serie ∈ loading s →
  whisperWorker fl open (Path serie) = Forwarded serie.
Proof.
  intros _ Hr. revert serie. revert s Hr. apply (rtc_ind_r (λ s, ∀ serie, _ → _)).
  - intros serie Hs. by apply loading_start in Hs.
  - intros s1 s2 _ Hstep IH serie.
    destruct Hstep as [p d s Hd|p d s Hd|p serie' l1 l2 s Hex Hw|p l1 l2 s Hex Hw
                      |serie' l1 l2 s Hld]; simpl; try apply IH.
    + rewrite elem_of_cons. intros [->|Hin]; [|by apply IH].
      by rewrite (whisperWorker_path _ _ _ _ Hw).
    + intros Hin. apply IH. rewrite Hld.
      rewrite elem_of_app in Hin. rewrite elem_of_app, elem_of_cons.
      destruct Hin; auto.
Qed.

(** X19: when the paths of the walk are distinct, no path is at two places
    of the pipeline at once, nor twice at one: not held by two whisper
    workers, not in two batches, not given up twice, not reported complete
    twice. *)
Theorem no_unit_twice keys s :
  NoDup keys →
  reachable fl open (start (announce keys)) s →
  NoDup (extracting s ++ (Path <$> loading s) ++ abandoned s
         ++ completed (trackerLog s)).
Proof.
  intros Hnd Hinv%pipelineInv_reachable.
  pose proof (pipeline_history _ _ Hnd Hinv) as [Hrec _].
  destruct Hinv as (_ & _ & Hwhere & _ & _).
  rewrite <- Hwhere in Hrec. unfold whereabouts in Hrec.
  by apply NoDup_app in Hrec as (_ & _ & Hrec).
Qed.

(** X20: once the walk is over and both pools hold nothing, every path the
    walk forwarded has either been reported complete or been given up, and
    the list of [keepOrder] holds the paths given up, in walk order. *)
Theorem drained_pipeline keys s :
  NoDup keys →
  reachable fl open (start (announce keys)) s →
  discovery s = [] → extracting s = [] → loading s = [] →
  firstInProgress s = filter (λ k, k ∈ abandoned s) keys
  ∧ ∀ k, k ∈ keys → k ∈ abandoned s ∨ k ∈ completed (trackerLog s).
Proof.
  intros Hnd Hinv%pipelineInv_reachable Hd Hex Hld.
  pose proof (pipeline_history _ _ Hnd Hinv) as Hh.
  destruct Hinv as (_ & Hkeys & Hwhere & _ & Hrun).
  unfold whereabouts in Hwhere. rewrite Hd, Hex, Hld in Hwhere. simpl in Hwhere.
  rewrite Hd in Hkeys. simpl in Hkeys. rewrite app_nil_r in Hkeys.
  rewrite Hkeys in Hwhere.
  assert (Hsplit : NoDup (abandoned s ++ completed (trackerLog s)))
    by (rewrite Hwhere; apply Hnd).
  apply NoDup_app in Hsplit as (_ & Hdisj & _).
  assert (Hall : ∀ k, k ∈ keys → k ∈ abandoned s ∨ k ∈ completed (trackerLog s)).
  { intros k Hk. rewrite <- Hwhere in Hk. by apply elem_of_app in Hk. }
  split; [|done].
  rewrite Hrun, run_history, Hkeys by done.
  clear Hh Hkeys Hrun Hnd Hwhere.
  induction keys as [|k keys IH]; [done|].
  assert (Hk : k ∉ completed (trackerLog s) ↔ k ∈ abandoned s).
  { split; [|apply Hdisj]. intros Hnc. destruct (Hall k); [by left|done|done]. }
  rewrite !filter_cons.
  destruct (decide (k ∉ completed (trackerLog s))) as [Hy|Hn];
    destruct (decide (k ∈ abandoned s)) as [Hy'|Hn']; try tauto.
  - f_equal. apply IH. intros k' Hk'. apply Hall. by right.
  - apply IH. intros k' Hk'. apply Hall. by right.
Qed.

Lemma step_log s s' :
  step fl open s s' →
  ∃ ops, trackerLog s' = trackerLog s ++ ops
         ∧ firstInProgress s' = run (firstInProgress s) ops.
Proof.
  destruct 1; simpl.
  - by exists [Found p].
  - exists []. by rewrite app_nil_r.
  - exists []. by rewrite app_nil_r.
  - exists []. by rewrite app_nil_r.
  - by exists [Finished (Path serie)].
Qed.

Lemma reachable_log s s' :
  reachable fl open s s' →
  ∃ ops, trackerLog s' = trackerLog s ++ ops
         ∧ firstInProgress s' = run (firstInProgress s) ops.
Proof.
  induction 1 as [s|s1 s2 s3 Hstep _ (ops2 & Hlog2 & Hrun2)].
  - exists []. by rewrite app_nil_r.
  - destruct (step_log _ _ Hstep) as (ops1 & Hlog1 & Hrun1).
    exists (ops1 ++ ops2). rewrite Hlog2, Hlog1, Hrun2, Hrun1.
    split; [by rewrite app_assoc|]. unfold run. by rewrite fold_left_app.
Qed.

(** X21: a path that has been given up and has reached the head of the list
    of [keepOrder] stays the head in every later state: it is the path an
    exit names, whatever else completes. *)
Theorem abandoned_head_stays keys s s' (p : string) :
  NoDup keys →
  reachable fl open (start (announce keys)) s →
  p ∈ abandoned s →
  head (firstInProgress s) = Some p →
  reachable fl open s s' →
  head (firstInProgress s') = Some p.
Proof.
  intros Hnd Hs Hp Hhead Hs'.
  destruct (reachable_log _ _ Hs') as (ops & Hlog & ->).
  apply head_run; [done|].
  destruct (abandoned_in_progress fl open keys s' p Hnd) as (_ & _ & _ & Hnf).
  - unfold reachable in *. by etrans.
  - by apply (abandoned_reachable fl open s s').
  - rewrite Hlog in Hnf. intros Hin. apply Hnf. rewrite elem_of_app. by right.
Qed.

Lemma upToError_no_error (entries : list (string * option string)) :
  Forall (λ entry, entry.2 = None) entries →
  upToError entries = entries.*1 ∧ firstError entries = None.
Proof.
  induction 1 as [|[path err] entries Herr _ [IH1 IH2]]; [done|].
  simpl in Herr. subst err. simpl. by rewrite IH1, IH2.
Qed.

Lemma elem_of_announce k keys : ToWhisperFiles k ∈ announce keys ↔ k ∈ keys.
Proof.
  induction keys as [|p keys IH]; simpl.
  - by rewrite !elem_of_nil.
  - rewrite !elem_of_cons, IH. naive_solver.
Qed.

Lemma NoDup_split_unique (x : string) l1 l2 k1 k2 :
  NoDup (l1 ++ x :: l2) → l1 ++ x :: l2 = k1 ++ x :: k2 → l1 = k1.
Proof.
  revert k1. induction l1 as [|a l1 IH]; intros k1 Hnd Heq.
  - destruct k1 as [|b k1]; [done|]. simpl in *. injection Heq as <- ->.
    apply NoDup_cons in Hnd as [Hx _]. destruct Hx.
    rewrite elem_of_app, elem_of_cons. auto.
  - destruct k1 as [|b k1]; simpl in *.
    + injection Heq as -> <-. apply NoDup_cons in Hnd as [Hx _]. destruct Hx.
      rewrite elem_of_app, elem_of_cons. auto.
    + injection Heq as <- Heq. apply NoDup_cons in Hnd as [_ Hnd].
      f_equal. by apply IH.
Qed.

Lemma head_filter_before (P : string → Prop) `{!∀ k, Decision (P k)} K r1 r2 a :
  NoDup (r1 ++ K :: r2) →
  head (filter P (r1 ++ K :: r2)) = Some K →
  a ∈ r1 → ¬ P a.
Proof.
  intros Hnd Hhead Ha HP.
  apply NoDup_app in Hnd as (_ & Hdisj & _).
  rewrite filter_app in Hhead.
  destruct (filter P r1) as [|x xs] eqn:Hf.
  - by apply (filter_nil_not_elem_of P r1 a).
  - simpl in Hhead. injection Hhead as ->.
    assert (HK : K ∈ filter P r1) by (rewrite Hf; by left).
    apply list_elem_of_filter in HK as [_ HK].
    apply (Hdisj K HK). by left.
Qed.

Lemma eligible_not_empty f path : eligible f path = true → path ≠ ""%string.
Proof. by intros He ->. Qed.

(** X22: resuming loses nothing.  Take a tree that is walked without errors
    and whose paths are distinct, and any state the program reaches on it;
    if the head of the list of [keepOrder] is [K] there, the path an exit
    would name, then a second walk of the tree with the cursor at [K] sends
    to the extract pool every path of the first walk that has not been
    reported complete. *)
Theorem resume_forwards_unfinished (f : filters) (n m : Z)
    (entries : list (string * option string)) s (K : string) :
  Forall (λ entry, entry.2 = None) entries →
  NoDup entries.*1 →
  0 ≤ m < 2 ^ 64 →
  reachable fl open
    (start (Walk f {| skipUntil := ""; skipCounter := n |} entries).1.2) s →
  head (firstInProgress s) = Some K →
  ∀ k, ToWhisperFiles k ∈ (Walk f {| skipUntil := ""; skipCounter := n |} entries).1.2 →
       k ∉ completed (trackerLog s) →
       ToWhisperFiles k ∈ (Walk f {| skipUntil := K; skipCounter := m |} entries).1.2.
Proof.
  intros Herr Hnd Hm. rewrite Walk_uncursored by done.
  destruct (upToError_no_error _ Herr) as [-> _]. simpl.
  set (keys := eligiblePaths f entries.*1).
  assert (Hndk : NoDup keys) by by apply NoDup_filter.
  intros Hinv%pipelineInv_reachable Hhead k Hk Hnc.
  apply elem_of_announce in Hk.
  pose proof (pipeline_history _ _ Hndk Hinv) as Hh.
  destruct Hinv as (_ & Hkeys & _ & _ & Hrun).
  rewrite Hrun, run_history in Hhead by done.
  (* [K] is recorded, hence a path of the tree that passes the filters *)
  assert (HKrec : K ∈ recorded (trackerLog s)).
  { apply head_Some_elem_of in Hhead. by apply list_elem_of_filter in Hhead as [_ ?]. }
  assert (HKkeys : K ∈ keys) by (rewrite <- Hkeys, elem_of_app; by left).
  apply list_elem_of_filter in HKkeys as [HKel HKin].
  apply list_elem_of_split_l in HKin as (b & a & Hba & HKb).
  destruct (fmap_app_inv _ _ _ _ Hba) as (before & rest & -> & Hrest & ->).
  symmetry in Hrest.
  apply fmap_cons_inv in Hrest as ([K' err] & after & HK' & -> & ->).
  simpl in HK'. subst K'.
  apply Forall_app in Herr as [Hbefore Hrest].
  apply Forall_cons in Hrest as [He Hafter]. simpl in He. subst err.
  rewrite Walk_resuming; [|by apply (eligible_not_empty f)|done..]. simpl.
  destruct (upToError_no_error _ Hafter) as [-> _].
  apply elem_of_announce.
  (* the keys of the first walk, split at [K] *)
  assert (Hsplit : keys = eligiblePaths f before.*1 ++ K :: eligiblePaths f after.*1).
  { unfold keys, eligiblePaths. rewrite fmap_app, fmap_cons, filter_app. simpl.
    by rewrite filter_cons_True by done. }
  unfold eligiblePaths at 1. rewrite filter_cons_True by done.
  fold (eligiblePaths f after.*1).
  rewrite Hsplit, elem_of_app in Hk. destruct Hk as [Hk|Hk]; [exfalso|done].
  (* a key before [K] has been recorded before [K], so it is completed *)
  apply list_elem_of_split_l in HKrec as (r1 & r2 & Hrec & HKr1).
  assert (r1 = eligiblePaths f before.*1) as Hr1.
  { apply (NoDup_split_unique K _ (r2 ++ upcoming (discovery s)) _
             (eligiblePaths f after.*1)).
    - rewrite app_comm_cons, app_assoc, <- Hrec, Hkeys. done.
    - rewrite app_comm_cons, app_assoc, <- Hrec, Hkeys. done. }
  rewrite <- Hr1 in Hk. destruct Hh as [Hndrec _]. rewrite Hrec in Hndrec, Hhead.
  by apply (head_filter_before _ K r1 r2 k Hndrec Hhead Hk).
Qed.

End PipelineMore.

Section PipelineMoreWitnesses.
Import OrderTracker Discovery Filter Whisper Extract Pipeline Sample.

(** Steps of the sample pipeline in range mode with skipping. *)
Ltac found := eapply rtc_l; [eapply step_found; reflexivity|]; simpl.
Ltac work := eapply rtc_l; [eapply step_work; reflexivity|]; simpl.
Ltac forward p serie l1 l2 :=
  eapply rtc_l; [by apply (step_forward _ _ p serie l1 l2)|]; simpl.
Ltac abandon p l1 l2 :=
  eapply rtc_l; [by apply (step_abandon _ _ p l1 l2)|]; simpl.
Ltac finished serie l1 l2 :=
  eapply rtc_l; [by apply (step_finished _ _ serie l1 l2)|]; simpl.

Lemma loading_is_extracted_witness :
  whisperWorker (rangeRead true) tree "/w/a.wsp" =
  Forwarded {| Path := "/w/a.wsp"; Points := [point 3600 1] |}.
Proof.
  apply (loading_is_extracted (rangeRead true) tree
           (announce ["/w/a.wsp"; "/w/b.wsp"]%string)
           {| discovery := announce ["/w/b.wsp"%string];
              firstInProgress := ["/w/a.wsp"%string];
              trackerLog := [Found "/w/a.wsp"]; extracting := [];
              loading := [{| Path := "/w/a.wsp"; Points := [point 3600 1] |}];
              abandoned := [] |}
           {| Path := "/w/a.wsp"; Points := [point 3600 1] |}).
  - reflexivity.
  - unfold reachable. found. work.
    forward "/w/a.wsp"%string {| Path := "/w/a.wsp"; Points := [point 3600 1] |}
            (@nil string) (@nil string).
    apply rtc_refl.
  - by left.
Defined.

Lemma sample_drained :
  reachable (rangeRead true) tree
    (start (announce ["/w/a.wsp"; "/w/b.wsp"]%string))
    {| discovery := []; firstInProgress := ["/w/b.wsp"%string];
       trackerLog := [Found "/w/a.wsp"; Found "/w/b.wsp"; Finished "/w/a.wsp"];
       extracting := []; loading := []; abandoned := ["/w/b.wsp"%string] |}.
Proof.
  unfold reachable. found. work. found. work.
  abandon "/w/b.wsp"%string (@nil string) ["/w/a.wsp"%string].
  forward "/w/a.wsp"%string {| Path := "/w/a.wsp"; Points := [point 3600 1] |}
          (@nil string) (@nil string).
  finished {| Path := "/w/a.wsp"; Points := [point 3600 1] |}
           (@nil (abstractSerie Z)) (@nil (abstractSerie Z)).
  apply rtc_refl.
Qed.

Lemma no_unit_twice_witness :
  NoDup ([] ++ [] ++ ["/w/b.wsp"] ++ ["/w/a.wsp"]%string).
Proof.
  apply (no_unit_twice (rangeRead true) tree ["/w/a.wsp"; "/w/b.wsp"]%string
           _ ltac:(by_compute) sample_drained).
Defined.

Lemma drained_pipeline_witness :
  ["/w/b.wsp"%string] =
  filter (λ k, k ∈ ["/w/b.wsp"%string]) ["/w/a.wsp"; "/w/b.wsp"]%string.
Proof.
  apply (drained_pipeline (rangeRead true) tree ["/w/a.wsp"; "/w/b.wsp"]%string
           _ ltac:(by_compute) sample_drained eq_refl eq_refl eq_refl).
Defined.

Lemma abandoned_head_stays_witness :
  head ["/w/b.wsp"; "/w/c.wsp"]%string = Some "/w/b.wsp"%string.
Proof.
  apply (abandoned_head_stays (rangeRead true) tree
           ["/w/b.wsp"; "/w/a.wsp"; "/w/c.wsp"]%string
           {| discovery := announce ["/w/a.wsp"; "/w/c.wsp"]%string;
              firstInProgress := ["/w/b.wsp"%string];
              trackerLog := [Found "/w/b.wsp"];
              extracting := []; loading := []; abandoned := ["/w/b.wsp"%string] |}
           {| discovery := [ToWhisperFiles "/w/c.wsp"];
              firstInProgress := ["/w/b.wsp"; "/w/c.wsp"]%string;
              trackerLog := [Found "/w/b.wsp"; Found "/w/a.wsp";
                             Finished "/w/a.wsp"; Found "/w/c.wsp"];
              extracting := []; loading := []; abandoned := ["/w/b.wsp"%string] |}
           "/w/b.wsp").
  - by_compute.
  - unfold reachable. found. work.
    abandon "/w/b.wsp"%string (@nil string) (@nil string). apply rtc_refl.
  - by left.
  - reflexivity.
  - unfold reachable. found. work.
    forward "/w/a.wsp"%string {| Path := "/w/a.wsp"; Points := [point 3600 1] |}
            (@nil string) (@nil string).
    finished {| Path := "/w/a.wsp"; Points := [point 3600 1] |}
             (@nil (abstractSerie Z)) (@nil (abstractSerie Z)).
    found. apply rtc_refl.
Defined.

Lemma resume_forwards_unfinished_witness :
  ToWhisperFiles "/w/b.wsp"
  ∈ (Walk {| include := ""; exclude := "" |}
          {| skipUntil := "/w/b.wsp"; skipCounter := 0 |}
          [("/w"%string, None); ("/w/a.wsp"%string, None);
           ("/w/b.wsp"%string, None)]).1.2.
Proof.
  apply (resume_forwards_unfinished (rangeRead true) tree
           {| include := ""; exclude := "" |} 0 0
           [("/w"%string, None); ("/w/a.wsp"%string, None);
            ("/w/b.wsp"%string, None)]
           {| discovery := []; firstInProgress := ["/w/b.wsp"%string];
              trackerLog := [Found "/w/a.wsp"; Found "/w/b.wsp"; Finished "/w/a.wsp"];
              extracting := []; loading := []; abandoned := ["/w/b.wsp"%string] |}
           "/w/b.wsp").
  - by_compute.
  - by_compute.
  - lia.
  - exact sample_drained.
  - reflexivity.
  - right. right. right. left.
  - by_compute.
Defined.

End PipelineMoreWitnesses.

(** ** The conversion evaluated on small inputs *)

Section EvaluationMore.
Import Whisper Extract Load Influx Sample.

Example seriesName_nested :
  seriesName "/w" "/w/cpu/load/a.wsp" = Some "cpu.load.a"%string.
Proof. reflexivity. Qed.

Example seriesName_only_last_suffix :
  seriesName "/w" "/w/a.wsp.wsp" = Some "a.wsp"%string.
Proof. reflexivity. Qed.

Example seriesName_of_whisperDir : seriesName "/w/a.wsp" "/w/a.wsp" = None.
Proof. reflexivity. Qed.

Example trimDir_two_slashes : trimDir "/w//" = "/w/"%string.
Proof. reflexivity. Qed.

Example influxWorker_retries_then_reports :
  influxWorker {| whisperDir := "/w"; influxDb := "graphite"; influxPrefix := "";
                  skipInfluxErrors := true |}
               {| Path := "/w/a.wsp"; Points := [point 3600 1] |} [false; true] =
  let b := {| RetentionPolicy := "default";
              BatchOf := [ {| Measurement := "a"; Fields := [("value"%string, 1)];
                              Time := 3600 |} ];
              Database := "graphite"; Precision := "s" |} in
  Some ([Write b; Sleep 5; Write b; FinishedFile "/w/a.wsp"], Done).
Proof. reflexivity. Qed.

Example influxWorker_empty_serie_is_written :
  influxWorker (float64 := Z) {| whisperDir := "/w"; influxDb := "graphite"; influxPrefix := "";
                  skipInfluxErrors := false |}
               {| Path := "/w/b.wsp"; Points := [] |} [true] =
  Some ([Write {| RetentionPolicy := "default"; BatchOf := [];
                  Database := "graphite"; Precision := "s" |};
         FinishedFile "/w/b.wsp"], Done).
Proof. reflexivity. Qed.

End EvaluationMore.

(** ** The whole iteration evaluated on the sample tree *)

Section RunOnEvaluation.
Import Whisper Extract RunOn Sample.

Example whisperWorkerRun_range_read_fails :
  whisperWorkerRun (rangeRead false) tree nothingLeft "/w/b.wsp" =
  [SendExit 2; SendSerie {| Path := "/w/b.wsp"; Points := [] |}].
Proof. reflexivity. Qed.

Example whisperWorkerRun_dump_fails :
  whisperWorkerRun (fullDump false) tree nothingLeft "/w/b.wsp" =
  [SendExit 2; SendSerie {| Path := "/w/b.wsp"; Points := [] |}].
Proof. reflexivity. Qed.

Example whisperWorkerRun_open_fails :
  whisperWorkerRun (rangeRead false) tree nothingLeft "/w/c.wsp" =
  [SendExit 2; SendExit 2; NilDereference].
Proof. reflexivity. Qed.

Example whisperWorkerRun_skipping :
  whisperWorkerRun (rangeRead true) tree nothingLeft "/w/b.wsp" = []
  ∧ whisperWorkerRun (fullDump true) tree nothingLeft "/w/a.wsp" =
    [SendSerie {| Path := "/w/a.wsp"; Points := [point 3600 2; point 3600 1] |}].
Proof. by split. Qed.

End RunOnEvaluation.
